(** * swift/codegen/lib/options.py: generator options, categorized by tags

    A shallow embedding of the module: the [Option] class, which registers
    every instance in the module-level [_options] registry when it is
    constructed, the fixed declarations of [_init_options], and the accessor
    [get], which returns a generator over the registry.

    Python objects with identity (Option instances, generator objects) live in
    a store and are named by references; the registry is a
    [collections.defaultdict(list)] keyed by tag. *)

From stdpp Require Import gmap strings list fin_maps sorting.

Local Open Scope string_scope.
Local Open Scope list_scope.
Local Open Scope stdpp_scope.

(** ** Python values carried by an Option

    [args] and [kwargs] of an Option are passed through to argparse and are
    never inspected by this module, so values are kept symbolic. *)

Inductive pyval : Type :=
  | PyNone
  | PyBool (b : bool)
  | PyStr (s : string)
  | PyFun (name : string)            (* a function object, e.g. [_abspath] *)
  | PyDiv (base : pyval) (rel : pyval). (* pathlib's [base / rel] *)

(** References: an Option instance and a generator object are named by the
    position at which they were allocated. *)
Definition oref := nat.
Definition gref := nat.

(** [class Option]: the two attributes set by [__init__]. *)
Record Option : Type := mkOption {
  args : list pyval;
  kwargs : list (string * pyval)
}.

(** ** [collections.defaultdict]

    Subscripting a missing key calls [default_factory], stores the value it
    returns under the key and returns it; without a factory it raises
    [KeyError].  The list object stored under a key is never replaced in this
    module, so the key also serves as the identity of that list. *)

Inductive factory : Type := Factory_list.

Definition call_factory (f : factory) : list oref :=
  match f with Factory_list => [] end.

Record defaultdict : Type := mkDict {
  default_factory : option factory;
  items : gmap string (list oref)
}.

(** The generator object built by the expression in [get]: the iterator over
    the tuple of tags (the tags not yet visited) and, while the inner [for]
    is running, the list iterator: which list (by key) and the next index. *)
Record generator : Type := mkGen {
  outer : list string;
  inner : option (string * nat)
}.

Definition finished : generator := {| outer := []; inner := None |}.

(** ** Program state *)

Record world : Type := mkWorld {
  heap : list Option;
  _options : defaultdict;
  generators : list generator
}.

Inductive exn : Type :=
  | KeyError (k : string)
  | TypeError
  | AttributeError.

Inductive result (A : Type) : Type :=
  | Ret (a : A)
  | Raise (e : exn).
Arguments Ret {A} a.
Arguments Raise {A} e.

(** Computations: state passing, with exceptions.  The state reached when an
    exception is raised is kept, as in Python. *)
Definition M (A : Type) : Type := world -> result A * world.

Definition ret {A} (a : A) : M A := fun w => (Ret a, w).

Definition bind {A B} (m : M A) (k : A -> M B) : M B :=
  fun w =>
    match m w with
    | (Ret a, w') => k a w'
    | (Raise e, w') => (Raise e, w')
    end.

Notation "x <- m ;; k" := (bind m (fun x => k))
  (at level 100, m at next level, right associativity).
Notation "m ;;; k" := (bind m (fun _ => k))
  (at level 100, right associativity).

(** [for x in xs: body x] *)
Fixpoint for_each {A} (xs : list A) (body : A -> M unit) : M unit :=
  match xs with
  | [] => ret tt
  | x :: rest => body x ;;; for_each rest body
  end.

Definition set_items (m : gmap string (list oref)) (w : world) : world :=
  {| heap := heap w;
     _options := {| default_factory := default_factory (_options w); items := m |};
     generators := generators w |}.

(** [_options[k]] *)
Definition getitem (k : string) : M (list oref) :=
  fun w =>
    match items (_options w) !! k with
    | Some l => (Ret l, w)
    | None =>
        match default_factory (_options w) with
        | Some f => (Ret (call_factory f),
                     set_items (<[k := call_factory f]> (items (_options w))) w)
        | None => (Raise (KeyError k), w)
        end
    end.

(** [.append(o)] on the list object held under key [k] *)
Definition list_append (k : string) (o : oref) : M unit :=
  fun w => (Ret tt, set_items (alter (fun l => l ++ [o]) k (items (_options w))) w).

(** Allocation of a new Option instance with its attributes. *)
Definition new_object (o : Option) : M oref :=
  fun w => (Ret (length (heap w)),
            {| heap := heap w ++ [o];
               _options := _options w;
               generators := generators w |}).

(** [tags or []] with [tags=None] as the default *)
Definition or_empty (tags : option (list string)) : list string :=
  match tags with
  | Some (t :: ts) => t :: ts
  | _ => []
  end.

(** Truth value of a list: [if tags:] *)
Definition truthy {A} (l : list A) : bool :=
  match l with [] => false | _ => true end.

(** Calling the class with positional arguments [a], [tags] and keyword
    arguments [kw]: the instance is created, [__init__] runs, and the call
    evaluates to the new instance. *)
Definition Option_init (a : list pyval) (tags : option (list string))
    (kw : list (string * pyval)) : M oref :=
  let tags := or_empty tags in
  self <- new_object {| args := a; kwargs := kw |} ;;
  (if truthy tags
   then for_each tags (fun t => _ <- getitem t ;; list_append t self)
   else (_ <- getitem "*" ;; list_append "*" self)) ;;;
  ret self.

(** [_init_options]; [swift_dir] stands for [paths.swift_dir], defined in a
    sibling module. *)
Definition _init_options (swift_dir : pyval) : M unit :=
  Option_init [PyStr "--verbose"; PyStr "-v"] None
    [("action", PyStr "store_true")] ;;;
  Option_init [PyStr "--schema"] (Some ["schema"])
    [("type", PyFun "_abspath");
     ("default", PyDiv swift_dir (PyStr "codegen/schema.yml"))] ;;;
  Option_init [PyStr "--dbscheme"] (Some ["dbscheme"])
    [("type", PyFun "_abspath");
     ("default", PyDiv swift_dir (PyStr "ql/lib/swift.dbscheme"))] ;;;
  Option_init [PyStr "--ql-output"] (Some ["ql"])
    [("type", PyFun "_abspath");
     ("default", PyDiv swift_dir (PyStr "ql/lib/codeql/swift/generated"))] ;;;
  Option_init [PyStr "--ql-stub-output"] (Some ["ql"])
    [("type", PyFun "_abspath");
     ("default", PyDiv swift_dir (PyStr "ql/lib/codeql/swift/elements"))] ;;;
  Option_init [PyStr "--codeql-binary"] (Some ["ql"])
    [("default", PyStr "codeql")] ;;;
  Option_init [PyStr "--trap-output"] (Some ["trap"])
    [("type", PyFun "_abspath"); ("required", PyBool true)] ;;;
  ret tt.

(** The module body: [_options = collections.defaultdict(list)], then
    [_init_options()]. *)
Definition module_start : world :=
  {| heap := [];
     _options := {| default_factory := Some Factory_list; items := ∅ |};
     generators := [] |}.

Definition module_world (swift_dir : pyval) : world :=
  snd (_init_options swift_dir module_start).

(** ** [get] and the generator it returns *)

Definition set_generator (g : gref) (st : generator) (w : world) : world :=
  {| heap := heap w;
     _options := _options w;
     generators := <[g := st]> (generators w) |}.

(** [get(tags)]: the tuple [('*',) + tuple(tags)] is built and its iterator
    taken when the generator expression is evaluated; nothing else runs
    until the generator is advanced.  The argument is the sequence of tags
    in the order in which [tuple(tags)] enumerates the collection passed. *)
Definition get (tags : list string) : M gref :=
  fun w => (Ret (length (generators w)),
            {| heap := heap w;
               _options := _options w;
               generators :=
                 generators w ++ [{| outer := "*" :: tags; inner := None |}] |}).

(** The sequence held under tag [t]: the list object stored under that key,
    and the empty sequence for a key that is absent. *)
Definition registry (w : world) (t : string) : list oref :=
  default [] (items (_options w) !! t).

(** The outer loop of the generator: take the next tag, evaluate
    [_options[tag]], start iterating it; an empty list moves on to the next
    tag.  [None] is the end of the generator. *)
Fixpoint resume (tags : list string) : M (option oref * generator) :=
  match tags with
  | [] => ret (None, finished)
  | tag :: rest =>
      l <- getitem tag ;;
      match l !! 0 with
      | Some o => ret (Some o, {| outer := rest; inner := Some (tag, 1) |})
      | None => resume rest
      end
  end.

(** [next(g)]: [Ret None] stands for [StopIteration].  A generator whose
    frame raised is finished. *)
Definition gen_next (g : gref) : M (option oref) :=
  fun w =>
    match generators w !! g with
    | None => (Raise TypeError, w)
    | Some st =>
        let body :=
          match inner st with
          | Some (tag, i) =>
              match registry w tag !! i with
              | Some o =>
                  ret (Some o, {| outer := outer st; inner := Some (tag, S i) |})
              | None => resume (outer st)
              end
          | None => resume (outer st)
          end in
        match body w with
        | (Ret (r, st'), w') => (Ret r, set_generator g st' w')
        | (Raise e, w') => (Raise e, set_generator g finished w')
        end
    end.

(** [list(g)] / [for o in g]: advance until [StopIteration].  The outer
    [option] is [None] only when [fuel] runs out. *)
Fixpoint iterate (fuel : nat) (g : gref) (w : world)
    : option (result (list oref) * world) :=
  match fuel with
  | 0 => None
  | S fuel' =>
      match gen_next g w with
      | (Raise e, w') => Some (Raise e, w')
      | (Ret None, w') => Some (Ret [], w')
      | (Ret (Some o), w') =>
          match iterate fuel' g w' with
          | Some (Ret os, w'') => Some (Ret (o :: os), w'')
          | other => other
          end
      end
  end.


(** ** Well-formed states

    The registry is the [defaultdict(list)] created by the module, and every
    reference it holds names an allocated Option. *)
Definition wfb (w : world) : bool :=
  match default_factory (_options w) with
  | Some Factory_list => true
  | None => false
  end
  && forallb (fun kl : string * list oref =>
                forallb (fun o => Nat.ltb o (length (heap w))) kl.2)
       (map_to_list (items (_options w))).

Definition wf (w : world) : Prop := wfb w = true.

(** Number of occurrences of [x] in [l]. *)
Definition occ {A} `{EqDecision A} (x : A) (l : list A) : nat :=
  length (filter (fun y => y = x) l).

(** The keys under which a constructor call registers: the declared tags,
    or the wildcard when there are none. *)
Definition keys_of (tags : option (list string)) : list string :=
  if truthy (or_empty tags) then or_empty tags else ["*"].

(** What subscripting does to the mapping of a [defaultdict(list)]. *)
Definition touch (m : gmap string (list oref)) (k : string)
    : gmap string (list oref) :=
  match m !! k with
  | Some _ => m
  | None => <[k := []]> m
  end.

Definition touch_all (ks : list string) (m : gmap string (list oref))
    : gmap string (list oref) :=
  foldl touch m ks.

(** What is left to produce for a generator in state [st]. *)
Definition pending (w : world) (st : generator) : list oref :=
  match inner st with
  | Some (tag, i) => drop i (registry w tag)
  | None => []
  end ++ flat_map (registry w) (outer st).

(** The operations a client of the module can perform. *)
Inductive op : Type :=
  | Construct (a : list pyval) (tags : option (list string))
      (kw : list (string * pyval))
  | Get (tags : list string)
  | Next (g : gref).

Definition run_op (w : world) (o : op) : world :=
  match o with
  | Construct a tags kw => snd (Option_init a tags kw w)
  | Get tags => snd (get tags w)
  | Next g => snd (gen_next g w)
  end.

Definition run_ops (os : list op) (w : world) : world := foldl run_op w os.

Definition is_read (o : op) : bool :=
  match o with Construct _ _ _ => false | _ => true end.

(** The state after [_options[k].append(o)]. *)
Definition add_under (o : oref) (w : world) (k : string) : world :=
  set_items (<[k := registry w k ++ [o]]> (items (_options w))) w.

(** The state after a constructor call. *)
Definition registered (a : list pyval) (tags : option (list string))
    (kw : list (string * pyval)) (w : world) : world :=
  foldl (add_under (length (heap w)))
    {| heap := heap w ++ [{| args := a; kwargs := kw |}];
       _options := _options w;
       generators := generators w |}
    (keys_of tags).

(** [list(get(tags))]: call [get] and consume the generator it returns. *)
Definition listed (fuel : nat) (tags : list string) (w : world)
    : option (result (list oref) * world) :=
  match get tags w with
  | (Ret g, w1) => iterate fuel g w1
  | (Raise e, w1) => Some (Raise e, w1)
  end.

(** [list(get(tags))] evaluates to [xs] in state [w], given enough fuel. *)
Definition yields (w : world) (tags : list string) (xs : list oref) : Prop :=
  ∀ fuel, length xs < fuel → ∃ w', listed fuel tags w = Some (Ret xs, w').

(** A constructor call, as written in a list of declarations. *)
Record declaration : Type := mkDecl {
  d_args : list pyval;
  d_tags : option (list string);
  d_kwargs : list (string * pyval)
}.

(** Running declarations one after the other. *)
Definition declare (ds : list declaration) (w : world) : world :=
  foldl (fun w d => snd (Option_init (d_args d) (d_tags d) (d_kwargs d) w)) w ds.

(** The declarations of [_init_options], as a list. *)
Definition init_declarations (swift_dir : pyval) : list declaration :=
  [ mkDecl [PyStr "--verbose"; PyStr "-v"] None [("action", PyStr "store_true")];
    mkDecl [PyStr "--schema"] (Some ["schema"])
      [("type", PyFun "_abspath");
       ("default", PyDiv swift_dir (PyStr "codegen/schema.yml"))];
    mkDecl [PyStr "--dbscheme"] (Some ["dbscheme"])
      [("type", PyFun "_abspath");
       ("default", PyDiv swift_dir (PyStr "ql/lib/swift.dbscheme"))];
    mkDecl [PyStr "--ql-output"] (Some ["ql"])
      [("type", PyFun "_abspath");
       ("default", PyDiv swift_dir (PyStr "ql/lib/codeql/swift/generated"))];
    mkDecl [PyStr "--ql-stub-output"] (Some ["ql"])
      [("type", PyFun "_abspath");
       ("default", PyDiv swift_dir (PyStr "ql/lib/codeql/swift/elements"))];
    mkDecl [PyStr "--codeql-binary"] (Some ["ql"]) [("default", PyStr "codeql")];
    mkDecl [PyStr "--trap-output"] (Some ["trap"])
      [("type", PyFun "_abspath"); ("required", PyBool true)] ].

(** ** [Option.add_to]

    The parser is an external collaborator: its state type and its
    [add_argument] method are parameters.  [add_argument] receives the
    positional and keyword arguments and may, like any Python call, raise
    and act on the program state. *)
Section Parser.
Variable parser : Type.
Variable add_argument :
  list pyval → list (string * pyval) → parser → world
  → result pyval * parser * world.

(** [self.add_to(p)]: the attributes of [self] are read and unpacked into
    the call; the value of the call is dropped and [None] is returned. *)
Definition add_to (self : oref) (p : parser) (w : world)
    : result pyval * parser * world :=
  match heap w !! self with
  | None => (Raise AttributeError, p, w)
  | Some o =>
      match add_argument (args o) (kwargs o) p w with
      | (Ret _, p', w') => (Ret PyNone, p', w')
      | (Raise e, p', w') => (Raise e, p', w')
      end
  end.
End Parser.

(** The state after [list(get(tags))]: every key that was subscripted is
    present, and the generator, the newest object, is finished. *)
Definition consumed (tags : list string) (w : world) : world :=
  {| heap := heap w;
     _options :=
       {| default_factory := default_factory (_options w);
          items := touch_all ("*" :: tags) (items (_options w)) |};
     generators := generators w ++ [finished] |}.

(** A collaborator that records the arguments of each [add_argument] call
    and touches nothing else. *)
Definition record_argument (a : list pyval) (kw : list (string * pyval))
    (p : list (list pyval * list (string * pyval))) (w : world)
    : result pyval * list (list pyval * list (string * pyval)) * world :=
  (Ret (PyStr "Action"), p ++ [(a, kw)], w).

(** ** Basic facts *)

Section Occurrences.
Context {A : Type} `{EqDecision A}.

Lemma occ_nil (x : A) : occ x [] = 0.
Proof. reflexivity. Qed.

Lemma occ_cons (x y : A) l :
  occ x (y :: l) = (if decide (y = x) then 1 else 0) + occ x l.
Proof. unfold occ. rewrite filter_cons. by destruct (decide (y = x)). Qed.

Lemma occ_app (x : A) l1 l2 : occ x (l1 ++ l2) = occ x l1 + occ x l2.
Proof. unfold occ. by rewrite filter_app, length_app. Qed.

Lemma occ_replicate (x y : A) n :
  occ x (replicate n y) = if decide (y = x) then n else 0.
Proof.
  induction n as [|n IH]; simpl.
  - by destruct (decide (y = x)).
  - rewrite occ_cons, IH. by destruct (decide (y = x)).
Qed.

Lemma occ_pos (x : A) l : 0 < occ x l ↔ x ∈ l.
Proof.
  induction l as [|y l IH].
  - rewrite occ_nil. split; [lia | by intros ?%elem_of_nil].
  - rewrite occ_cons, elem_of_cons. destruct (decide (y = x)); subst.
    + split; [auto | lia].
    + rewrite <- IH. split; [intros; right; lia | intros [->|?]; [done | lia]].
Qed.

Lemma occ_zero (x : A) l : occ x l = 0 ↔ x ∉ l.
Proof. rewrite <- occ_pos. lia. Qed.
End Occurrences.

Lemma world_eta w :
  {| heap := heap w;
     _options := {| default_factory := default_factory (_options w);
                    items := items (_options w) |};
     generators := generators w |} = w.
Proof. by destruct w as [h [f m] g]. Qed.

Lemma set_items_id w : set_items (items (_options w)) w = w.
Proof. apply world_eta. Qed.

Lemma registry_touch w k t :
  registry (set_items (touch (items (_options w)) k) w) t = registry w t.
Proof.
  unfold registry, touch; simpl.
  destruct (items (_options w) !! k) eqn:Hk; [done |].
  destruct (decide (k = t)) as [->|Hne].
  - by rewrite lookup_insert_eq, Hk.
  - by rewrite lookup_insert_ne.
Qed.

Lemma wf_spec w :
  wf w ↔
  default_factory (_options w) = Some Factory_list ∧
  ∀ t o, o ∈ registry w t → o < length (heap w).
Proof.
  unfold wf, wfb. rewrite andb_true_iff, forallb_forall.
  assert (Hfac : match default_factory (_options w) with
                 | Some Factory_list => true
                 | None => false
                 end = true ↔ default_factory (_options w) = Some Factory_list)
    by (destruct (default_factory _) as [[]|]; naive_solver).
  rewrite Hfac. clear Hfac.
  enough ((∀ x : string * list oref, In x (map_to_list (items (_options w))) →
             forallb (fun o => Nat.ltb o (length (heap w))) x.2 = true) ↔
          (∀ t o, o ∈ registry w t → o < length (heap w))) by tauto.
  split.
  - intros H t o Ho. unfold registry in Ho.
    destruct (items (_options w) !! t) as [l|] eqn:Hl; simpl in Ho;
      [| by apply elem_of_nil in Ho].
    specialize (H (t, l)). rewrite <- list_elem_of_In, elem_of_map_to_list in H.
    specialize (H Hl). simpl in H. rewrite forallb_forall in H.
    apply Nat.ltb_lt, H. by apply list_elem_of_In.
  - intros H [t l] Hin. apply list_elem_of_In, elem_of_map_to_list in Hin.
    simpl. apply forallb_forall. intros o Ho. apply Nat.ltb_lt, (H t).
    unfold registry. rewrite Hin. simpl. by apply list_elem_of_In.
Qed.

Lemma getitem_spec w k :
  default_factory (_options w) = Some Factory_list →
  getitem k w = (Ret (registry w k), set_items (touch (items (_options w)) k) w).
Proof.
  intros Hf. unfold getitem, registry, touch.
  destruct (items (_options w) !! k) eqn:Hk; simpl.
  - by rewrite set_items_id.
  - by rewrite Hf.
Qed.

(** ** Registration *)

Lemma subscript_append w k o :
  default_factory (_options w) = Some Factory_list →
  (_ <- getitem k ;; list_append k o) w = (Ret tt, add_under o w k).
Proof.
  intros Hf. unfold bind. rewrite getitem_spec by done.
  unfold list_append, add_under, set_items, registry, touch; simpl.
  do 3 f_equal. apply map_eq. intros j.
  rewrite lookup_alter, lookup_insert.
  destruct (items (_options w) !! k) eqn:Hk; simpl;
    destruct (decide (k = j)) as [->|]; simpl;
    rewrite ?Hk, ?lookup_insert_eq, ?lookup_insert_ne; done.
Qed.

Lemma registry_add_under o w k t :
  registry (add_under o w k) t
  = registry w t ++ (if decide (k = t) then [o] else []).
Proof.
  unfold add_under, registry; simpl. rewrite lookup_insert.
  destruct (decide (k = t)) as [->|]; simpl; [done | by rewrite app_nil_r].
Qed.

Lemma fold_add_under_frame o ks : ∀ w,
  heap (foldl (add_under o) w ks) = heap w ∧
  generators (foldl (add_under o) w ks) = generators w ∧
  default_factory (_options (foldl (add_under o) w ks))
  = default_factory (_options w).
Proof.
  induction ks as [|k ks IH]; intros w; simpl; [done |].
  destruct (IH (add_under o w k)) as (-> & -> & ->). done.
Qed.

Lemma registry_fold_add_under o ks : ∀ w t,
  registry (foldl (add_under o) w ks) t
  = registry w t ++ replicate (occ t ks) o.
Proof.
  induction ks as [|k ks IH]; intros w t; simpl.
  - by rewrite app_nil_r.
  - rewrite IH, registry_add_under, occ_cons, <- app_assoc.
    by destruct (decide (k = t)).
Qed.

Lemma for_each_append o ks : ∀ w,
  default_factory (_options w) = Some Factory_list →
  for_each ks (fun t => _ <- getitem t ;; list_append t o) w
  = (Ret tt, foldl (add_under o) w ks).
Proof.
  induction ks as [|k ks IH]; intros w Hf; simpl; [done |].
  unfold bind at 1. rewrite subscript_append by done.
  apply IH. done.
Qed.

Lemma Option_init_spec a tags kw w :
  default_factory (_options w) = Some Factory_list →
  Option_init a tags kw w = (Ret (length (heap w)), registered a tags kw w).
Proof.
  intros Hf. unfold Option_init, registered, keys_of, new_object.
  unfold bind at 1. unfold bind at 1.
  destruct (truthy (or_empty tags)).
  - rewrite for_each_append by done. done.
  - rewrite subscript_append by done. done.
Qed.

Lemma registered_heap a tags kw w :
  heap (registered a tags kw w) = heap w ++ [{| args := a; kwargs := kw |}].
Proof. unfold registered. by destruct (fold_add_under_frame (length (heap w)) (keys_of tags) {| heap := heap w ++ [{| args := a; kwargs := kw |}]; _options := _options w; generators := generators w |}) as (-> & _). Qed.

Lemma registered_generators a tags kw w :
  generators (registered a tags kw w) = generators w.
Proof. unfold registered. by destruct (fold_add_under_frame (length (heap w)) (keys_of tags) {| heap := heap w ++ [{| args := a; kwargs := kw |}]; _options := _options w; generators := generators w |}) as (_ & -> & _). Qed.

Lemma registered_factory a tags kw w :
  default_factory (_options (registered a tags kw w))
  = default_factory (_options w).
Proof. unfold registered. by destruct (fold_add_under_frame (length (heap w)) (keys_of tags) {| heap := heap w ++ [{| args := a; kwargs := kw |}]; _options := _options w; generators := generators w |}) as (_ & _ & ->). Qed.

Lemma registered_registry a tags kw w t :
  registry (registered a tags kw w) t
  = registry w t ++ replicate (occ t (keys_of tags)) (length (heap w)).
Proof. unfold registered. by rewrite registry_fold_add_under. Qed.

Lemma wf_registered a tags kw w : wf w → wf (registered a tags kw w).
Proof.
  rewrite !wf_spec. intros [Hf Hb]. split.
  - by rewrite registered_factory.
  - intros t o. rewrite registered_registry, registered_heap, length_app.
    simpl. rewrite elem_of_app. intros [Ho | Ho%elem_of_replicate].
    + specialize (Hb t o Ho). lia.
    + destruct Ho as [-> _]. lia.
Qed.

Lemma fresh_not_registered w t : wf w → length (heap w) ∉ registry w t.
Proof.
  rewrite wf_spec. intros [_ Hb] Hin. specialize (Hb _ _ Hin). lia.
Qed.

(** ** The generator *)

Lemma set_items_twice m1 m2 w : set_items m2 (set_items m1 w) = set_items m2 w.
Proof. reflexivity. Qed.

Lemma registry_touch_all ks : ∀ w t,
  registry (set_items (touch_all ks (items (_options w))) w) t = registry w t.
Proof.
  induction ks as [|k ks IH]; intros w t; simpl.
  - by rewrite set_items_id.
  - specialize (IH (set_items (touch (items (_options w)) k) w) t).
    simpl in IH. rewrite set_items_twice in IH.
    unfold touch_all in *. simpl. rewrite IH. apply registry_touch.
Qed.

Lemma pending_ext w1 w2 st :
  (∀ t, registry w1 t = registry w2 t) → pending w1 st = pending w2 st.
Proof.
  intros H. unfold pending. f_equal.
  - destruct (inner st) as [[tag i]|]; [by rewrite H | done].
  - apply flat_map_ext. done.
Qed.

Lemma registry_set_generator g st w t :
  registry (set_generator g st w) t = registry w t.
Proof. reflexivity. Qed.

Lemma resume_spec tags : ∀ w,
  default_factory (_options w) = Some Factory_list →
  ∃ visited st' r,
    resume tags w
    = (Ret (r, st'), set_items (touch_all visited (items (_options w))) w) ∧
    tags = visited ++ outer st' ∧
    match r with
    | Some o => flat_map (registry w) tags = o :: pending w st'
    | None => flat_map (registry w) tags = [] ∧ st' = finished
    end.
Proof.
  induction tags as [|tag rest IH]; intros w Hf.
  - exists [], finished, None. simpl. by rewrite set_items_id.
  - simpl. unfold bind. rewrite getitem_spec by done.
    destruct (registry w tag) as [|o l'] eqn:Hl; simpl.
    + destruct (IH (set_items (touch (items (_options w)) tag) w) Hf)
        as (visited & st' & r & Hres & Hsplit & Hr).
      exists (tag :: visited), st', r. rewrite Hres. split; [done |].
      split; [by rewrite Hsplit |].
      assert (Hreg : ∀ t, registry (set_items (touch (items (_options w)) tag) w) t
                          = registry w t) by (intros; apply registry_touch).
      rewrite (flat_map_ext _ _ Hreg) in Hr.
      destruct r as [o|]; [| done].
      by rewrite Hr, (pending_ext _ w st' Hreg).
    + exists [tag], {| outer := rest; inner := Some (tag, 1) |}, (Some o).
      split; [done |]. split; [done |].
      unfold pending; simpl. rewrite Hl. simpl. by rewrite drop_0.
Qed.

Lemma gen_next_spec g w st :
  default_factory (_options w) = Some Factory_list →
  generators w !! g = Some st →
  ∃ visited st' r,
    gen_next g w
    = (Ret r, set_generator g st'
                (set_items (touch_all visited (items (_options w))) w)) ∧
    outer st = visited ++ outer st' ∧
    match r with
    | Some o => pending w st = o :: pending w st'
    | None => pending w st = [] ∧ st' = finished ∧ visited = outer st
    end.
Proof.
  intros Hf Hg. unfold gen_next. rewrite Hg.
  assert (Hres : ∀ pre, pre = [] →
    ∃ visited st' r,
      (let (p, w') := resume (outer st) w in
       match p with
       | Ret (r, st') => (Ret r, set_generator g st' w')
       | Raise e => (Raise e, set_generator g finished w')
       end)
      = (Ret r, set_generator g st'
                  (set_items (touch_all visited (items (_options w))) w)) ∧
      outer st = visited ++ outer st' ∧
      match r with
      | Some o => pre ++ flat_map (registry w) (outer st) = o :: pending w st'
      | None => pre ++ flat_map (registry w) (outer st) = [] ∧ st' = finished
                ∧ visited = outer st
      end).
  { intros pre ->. destruct (resume_spec (outer st) w Hf)
      as (visited & st' & r & -> & Hsplit & Hr).
    exists visited, st', r. split; [done |]. split; [done |].
    destruct r as [o|]; [done |]. destruct Hr as [Hr ->].
    simpl in Hsplit. rewrite app_nil_r in Hsplit. done. }
  unfold pending at 1 3.
  destruct (inner st) as [[tag i]|] eqn:Hin; [| by apply Hres].
  destruct (registry w tag !! i) as [o|] eqn:Hi.
  - exists [], {| outer := outer st; inner := Some (tag, S i) |}, (Some o).
    simpl. rewrite set_items_id. split; [done |]. split; [done |].
    unfold pending; simpl. by rewrite (drop_S _ _ _ Hi).
  - apply Hres, drop_ge. by apply lookup_ge_None.
Qed.

Lemma iterate_spec g : ∀ fuel w st,
  default_factory (_options w) = Some Factory_list →
  generators w !! g = Some st →
  length (pending w st) < fuel →
  iterate fuel g w
  = Some (Ret (pending w st),
          set_generator g finished
            (set_items (touch_all (outer st) (items (_options w))) w)).
Proof.
  induction fuel as [|fuel IH]; intros w st Hf Hg Hlen; [lia |].
  simpl. destruct (gen_next_spec g w st Hf Hg)
    as (visited & st' & r & -> & Hsplit & Hr).
  destruct r as [o|].
  - set (w' := set_generator g st'
                 (set_items (touch_all visited (items (_options w))) w)).
    assert (Hreg : ∀ t, registry w' t = registry w t)
      by (intros; apply registry_touch_all).
    rewrite (IH w' st').
    + rewrite (pending_ext w' w st' Hreg), Hr.
      unfold w', set_generator, set_items; simpl.
      rewrite list_insert_insert_eq, Hsplit. unfold touch_all.
      by rewrite foldl_app.
    + done.
    + simpl. apply list_lookup_insert_eq. by eapply lookup_lt_Some.
    + rewrite (pending_ext w' w st' Hreg). rewrite Hr in Hlen. simpl in Hlen. lia.
  - destruct Hr as (-> & -> & ->). done.
Qed.

(** ** Calling [get] and consuming its result *)

(** The state after a call of [get tags] whose generator has been run to
    its end. *)
Lemma listed_spec fuel tags w :
  default_factory (_options w) = Some Factory_list →
  length (registry w "*" ++ flat_map (registry w) tags) < fuel →
  listed fuel tags w
  = Some (Ret (registry w "*" ++ flat_map (registry w) tags), consumed tags w).
Proof.
  intros Hf Hlen. unfold listed, get, consumed.
  rewrite (iterate_spec _ fuel _ {| outer := "*" :: tags; inner := None |}).
  - unfold pending, set_generator, set_items. simpl.
    do 3 f_equal. rewrite insert_app_r_alt by done.
    by rewrite Nat.sub_diag.
  - done.
  - simpl. by apply list_lookup_middle.
  - done.
Qed.

Lemma yields_sequence w tags :
  default_factory (_options w) = Some Factory_list →
  yields w tags (registry w "*" ++ flat_map (registry w) tags).
Proof. intros Hf fuel Hlen. eexists. by apply listed_spec. Qed.

Lemma yields_functional w tags xs ys :
  yields w tags xs → yields w tags ys → xs = ys.
Proof.
  intros Hx Hy.
  destruct (Hx (S (length xs + length ys))) as [w1 H1]; [lia |].
  destruct (Hy (S (length xs + length ys))) as [w2 H2]; [lia |].
  congruence.
Qed.

Lemma wf_factory w : wf w → default_factory (_options w) = Some Factory_list.
Proof. rewrite wf_spec. tauto. Qed.

(** ** Sequences of operations *)

Lemma gen_next_dangling g w :
  generators w !! g = None → gen_next g w = (Raise TypeError, w).
Proof. intros Hg. unfold gen_next. by rewrite Hg. Qed.

Lemma run_op_read o w :
  wf w → is_read o = true →
  wf (run_op w o) ∧ heap (run_op w o) = heap w ∧
  ∀ t, registry (run_op w o) t = registry w t.
Proof.
  intros Hwf Hread. destruct o as [a tags kw | tags | g]; [done | |]; simpl.
  - split; [exact Hwf | done].
  - destruct (generators w !! g) as [st|] eqn:Hg.
    + destruct (gen_next_spec g w st (wf_factory w Hwf) Hg)
        as (visited & st' & r & -> & _ & _). simpl.
      assert (Hreg : ∀ t, registry (set_generator g st'
                 (set_items (touch_all visited (items (_options w))) w)) t
               = registry w t) by (intros; apply registry_touch_all).
      split; [| by split].
      revert Hwf. rewrite !wf_spec. intros [Hf Hb]. split; [done |].
      intros t o. rewrite Hreg. apply Hb.
    + rewrite gen_next_dangling by done. by split.
Qed.

Lemma run_op_wf o w : wf w → wf (run_op w o).
Proof.
  intros Hwf. destruct o as [a tags kw | tags | g].
  - simpl. rewrite Option_init_spec by by apply wf_factory.
    by apply wf_registered.
  - by apply (run_op_read (Get tags)).
  - by apply (run_op_read (Next g)).
Qed.

Lemma run_op_prefix o w t :
  wf w → registry w t `prefix_of` registry (run_op w o) t.
Proof.
  intros Hwf. destruct o as [a tags kw | tags | g].
  - simpl. rewrite Option_init_spec by by apply wf_factory.
    simpl. rewrite registered_registry. by apply prefix_app_r.
  - by destruct (run_op_read (Get tags) w Hwf eq_refl) as (_ & _ & ->).
  - by destruct (run_op_read (Next g) w Hwf eq_refl) as (_ & _ & ->).
Qed.

Lemma run_ops_wf os : ∀ w, wf w → wf (run_ops os w).
Proof.
  induction os as [|o os IH]; intros w Hwf; simpl; [done |].
  by apply IH, run_op_wf.
Qed.

Lemma run_ops_prefix os : ∀ w t,
  wf w → registry w t `prefix_of` registry (run_ops os w) t.
Proof.
  induction os as [|o os IH]; intros w t Hwf; simpl; [done |].
  etrans; [by apply (run_op_prefix o) |]. by apply IH, run_op_wf.
Qed.

Lemma run_ops_read os : ∀ w,
  wf w → forallb is_read os = true →
  ∀ t, registry (run_ops os w) t = registry w t.
Proof.
  induction os as [|o os IH]; intros w Hwf Hread t; simpl; [done |].
  simpl in Hread. apply andb_true_iff in Hread as [Ho Hos].
  destruct (run_op_read o w Hwf Ho) as (Hwf' & _ & Hreg).
  by rewrite IH, Hreg.
Qed.

Lemma wf_module_start : wf module_start.
Proof. vm_compute. reflexivity. Qed.

(** ** Declarations in sequence *)

Lemma declare_spec ds : ∀ w t,
  wf w →
  wf (declare ds w) ∧
  length (heap (declare ds w)) = length (heap w) + length ds ∧
  registry (declare ds w) t
  = registry w t
    ++ concat (imap (fun i d => replicate (occ t (keys_of (d_tags d)))
                                  (length (heap w) + i)) ds).
Proof.
  induction ds as [|d ds IH]; intros w t Hwf; simpl.
  - rewrite app_nil_r. split; [done | split; [lia | done]].
  - rewrite Option_init_spec by by apply wf_factory. simpl.
    destruct (IH (registered (d_args d) (d_tags d) (d_kwargs d) w) t)
      as (Hwf' & Hlen & Hreg); [by apply wf_registered |].
    split; [done |]. rewrite Hlen, Hreg, registered_heap, length_app. simpl.
    split; [lia |].
    rewrite registered_registry, <- app_assoc, Nat.add_0_r. do 3 f_equal.
    apply imap_ext. intros i d' _. simpl. f_equal. lia.
Qed.

Lemma module_world_declare swift_dir :
  module_world swift_dir = declare (init_declarations swift_dir) module_start.
Proof. vm_compute. reflexivity. Qed.

Lemma wf_module_world swift_dir : wf (module_world swift_dir).
Proof. vm_compute. reflexivity. Qed.

Lemma declare_heap ds : ∀ w,
  wf w →
  heap (declare ds w)
  = heap w ++ map (fun d => {| args := d_args d; kwargs := d_kwargs d |}) ds.
Proof.
  induction ds as [|d ds IH]; intros w Hwf; simpl.
  - by rewrite app_nil_r.
  - rewrite Option_init_spec by by apply wf_factory. simpl.
    rewrite IH by by apply wf_registered.
    by rewrite registered_heap, <- app_assoc.
Qed.

Lemma occ_flat_map {A B} `{EqDecision B} (x : B) (f : A → list B) l :
  occ x (flat_map f l) = sum_list (map (fun a => occ x (f a)) l).
Proof.
  induction l as [|a l IH]; simpl; [done |]. by rewrite occ_app, IH.
Qed.

Lemma occ_NoDup {A} `{EqDecision A} (x : A) l :
  NoDup l → x ∈ l → occ x l = 1.
Proof.
  induction 1 as [|y l Hy Hnd IH]; [by intros ?%elem_of_nil |].
  rewrite occ_cons, elem_of_cons. destruct (decide (y = x)) as [->|Hne].
  - intros _. apply occ_zero in Hy. lia.
  - intros [->|Hin]; [done |]. rewrite IH by done. lia.
Qed.

(** * Properties of the module *)

(** ** C1 *)

(** C1. For every requested tag list, consuming [get(tags)] produces the
    wildcard tag's sequence followed by, for each requested tag in the order
    supplied, that tag's whole sequence from the registry; with no requested
    tag it produces exactly the wildcard sequence. *)
Theorem get_wildcard_then_requested (w : world) (tags : list string) :
  wf w →
  yields w tags (registry w "*" ++ flat_map (registry w) tags) ∧
  yields w [] (registry w "*").
Proof.
  intros Hwf. split.
  - by apply yields_sequence, wf_factory.
  - pose proof (yields_sequence w [] (wf_factory w Hwf)) as H.
    simpl in H. by rewrite app_nil_r in H.
Qed.

Lemma get_wildcard_then_requested_witness :
  wf (module_world PyNone) ∧
  yields (module_world PyNone) ["ql"; "trap"] [0; 3; 4; 5; 6] ∧
  yields (module_world PyNone) [] [0].
Proof.
  assert (Hwf : wf (module_world PyNone)) by (vm_compute; reflexivity).
  split; [exact Hwf |].
  assert (E1 : registry (module_world PyNone) "*"
               ++ flat_map (registry (module_world PyNone)) ["ql"; "trap"]
               = [0; 3; 4; 5; 6]) by (vm_compute; reflexivity).
  assert (E2 : registry (module_world PyNone) "*" = [0])
    by (vm_compute; reflexivity).
  rewrite <- E1, <- E2.
  exact (get_wildcard_then_requested (module_world PyNone) ["ql"; "trap"] Hwf).
Defined.

(** ** C2 *)

(** An Option declared with the tag list [["*"]] has a non-empty tag set and
    is nevertheless appended under the wildcard tag: the loop over the
    declared tags does not treat ["*"] specially. *)
Lemma wildcard_as_declared_tag_counterexample :
  truthy (or_empty (Some ["*"])) = true ∧
  fst (Option_init [PyStr "--all"] (Some ["*"]) [] module_start) = Ret 0 ∧
  ¬ (0 ∉ registry (snd (Option_init [PyStr "--all"] (Some ["*"]) [] module_start))
            "*").
Proof.
  split; [reflexivity |]. split; [vm_compute; reflexivity |].
  intros H. apply H.
  replace (registry (snd (Option_init [PyStr "--all"] (Some ["*"]) []
                            module_start)) "*") with [0]
    by (vm_compute; reflexivity).
  apply list_elem_of_here.
Qed.

(** C2 (amended). A constructor call returns a new reference.  With a
    non-empty tag list the Option is appended under each declared tag, once
    per occurrence, and under no other key, so it is under the wildcard tag
    exactly when ["*"] is among the declared tags; with no tags, or an empty
    tag list, it is appended once under the wildcard tag and nowhere else. *)
Theorem Option_appended_under_declared_tags (w : world) (a : list pyval)
    (tags : option (list string)) (kw : list (string * pyval)) :
  wf w →
  ∃ w',
    Option_init a tags kw w = (Ret (length (heap w)), w') ∧
    (∀ t, length (heap w) ∉ registry w t) ∧
    (∀ ts, tags = Some ts → ts ≠ [] →
       (∀ t, registry w' t
             = registry w t ++ replicate (occ t ts) (length (heap w))) ∧
       (∀ t, length (heap w) ∈ registry w' t ↔ t ∈ ts) ∧
       ("*" ∉ ts → registry w' "*" = registry w "*")) ∧
    (tags = None ∨ tags = Some [] →
       registry w' "*" = registry w "*" ++ [length (heap w)] ∧
       (∀ t, t ≠ "*" → registry w' t = registry w t) ∧
       (∀ t, length (heap w) ∈ registry w' t ↔ t = "*")).
Proof.
  intros Hwf. exists (registered a tags kw w).
  split; [by apply Option_init_spec, wf_factory |].
  split; [intros t; by apply fresh_not_registered |].
  assert (Hmem : ∀ t ks,
    registry (registered a tags kw w) t
    = registry w t ++ replicate (occ t ks) (length (heap w)) →
    length (heap w) ∈ registry (registered a tags kw w) t ↔ t ∈ ks).
  { intros t ks ->. rewrite elem_of_app, elem_of_replicate.
    pose proof (fresh_not_registered w t Hwf) as Hfresh.
    pose proof (occ_pos t ks) as Hocc. split.
    - intros [? | [_ ?]]; [done |]. apply Hocc. lia.
    - intros Hin. right. split; [done |]. apply Hocc in Hin. lia. }
  split.
  - intros ts -> Hne.
    assert (Hkeys : keys_of (Some ts) = ts) by by destruct ts.
    assert (Hreg : ∀ t, registry (registered a (Some ts) kw w) t
                        = registry w t ++ replicate (occ t ts) (length (heap w)))
      by (intros t; by rewrite registered_registry, Hkeys).
    split; [done |]. split; [intros t; by apply Hmem |].
    intros Hnot. rewrite Hreg. apply occ_zero in Hnot. rewrite Hnot.
    simpl. by rewrite app_nil_r.
  - intros Hempty.
    assert (Hkeys : keys_of tags = ["*"]) by by destruct Hempty as [-> | ->].
    assert (Hreg : ∀ t, registry (registered a tags kw w) t
                        = registry w t ++ replicate (occ t ["*"]) (length (heap w)))
      by (intros t; by rewrite registered_registry, Hkeys).
    split; [by rewrite Hreg |]. split.
    + intros t Hne. rewrite Hreg, occ_cons.
      destruct (decide ("*" = t)); [congruence |]. simpl. by rewrite app_nil_r.
    + intros t. rewrite (Hmem t ["*"]) by done. by rewrite list_elem_of_singleton.
Qed.

Lemma Option_appended_under_declared_tags_witness :
  wf (module_world PyNone) ∧
  ∃ w', Option_init [PyStr "--ql-extra"] (Some ["ql"]) [] (module_world PyNone)
        = (Ret 7, w') ∧
        registry w' "ql" = [3; 4; 5; 7] ∧ registry w' "*" = [0].
Proof.
  assert (Hwf : wf (module_world PyNone)) by (vm_compute; reflexivity).
  split; [exact Hwf |].
  destruct (Option_appended_under_declared_tags (module_world PyNone)
              [PyStr "--ql-extra"] (Some ["ql"]) [] Hwf)
    as (w' & Hinit & _ & Htagged & _).
  destruct (Htagged ["ql"] eq_refl) as (Hreg & _ & Hwild); [discriminate |].
  exists w'. split; [exact Hinit |]. split.
  - rewrite Hreg. vm_compute. reflexivity.
  - rewrite Hwild.
    + vm_compute. reflexivity.
    + intros Hin. apply list_elem_of_singleton in Hin. discriminate.
Defined.

(** ** C3 *)

Lemma StronglySorted_replicate n (x : nat) : StronglySorted le (replicate n x).
Proof.
  induction n as [|n IH]; simpl; constructor; [done |].
  by apply Forall_replicate.
Qed.

Lemma run_op_sorted o w :
  wf w → (∀ t, StronglySorted le (registry w t)) →
  ∀ t, StronglySorted le (registry (run_op w o) t).
Proof.
  intros Hwf Hs t. destruct o as [a tags kw | tags | g].
  - simpl. rewrite Option_init_spec by by apply wf_factory. simpl.
    rewrite registered_registry. apply StronglySorted_app_2.
    + intros x y Hx Hy%elem_of_replicate_inv. subst y.
      apply wf_spec in Hwf as [_ Hb]. specialize (Hb t x Hx). lia.
    + apply Hs.
    + apply StronglySorted_replicate.
  - destruct (run_op_read (Get tags) w Hwf eq_refl) as (_ & _ & ->). apply Hs.
  - destruct (run_op_read (Next g) w Hwf eq_refl) as (_ & _ & ->). apply Hs.
Qed.

Lemma run_ops_sorted os : ∀ w,
  wf w → (∀ t, StronglySorted le (registry w t)) →
  ∀ t, StronglySorted le (registry (run_ops os w) t).
Proof.
  induction os as [|o os IH]; intros w Hwf Hs t; simpl; [apply Hs |].
  apply IH; [by apply run_op_wf | by apply run_op_sorted].
Qed.

(** C3. Registration only appends: a constructor call returns the next
    reference in allocation order and extends each tag's sequence at its end
    with copies of that reference, leaving what was there in place.  Hence
    in the state reached from the empty module by any operations each tag's
    sequence is in increasing order of reference, that is, in construction
    order; after a list of declarations the sequence under a tag lists, in
    declaration order, the declarations carrying that tag; and
    [_init_options] yields the sequences written out below. *)
Theorem registry_in_declaration_order :
  (∀ w a tags kw, wf w →
     ∃ w', Option_init a tags kw w = (Ret (length (heap w)), w') ∧
           heap w' = heap w ++ [{| args := a; kwargs := kw |}] ∧
           ∀ t, ∃ n, registry w' t = registry w t ++ replicate n (length (heap w))) ∧
  (∀ os t, StronglySorted le (registry (run_ops os module_start) t)) ∧
  (∀ ds,
     heap (declare ds module_start)
     = map (fun d => {| args := d_args d; kwargs := d_kwargs d |}) ds ∧
     ∀ t, registry (declare ds module_start) t
          = concat (imap (fun i d => replicate (occ t (keys_of (d_tags d))) i) ds)) ∧
  (∀ swift_dir,
     module_world swift_dir = declare (init_declarations swift_dir) module_start ∧
     registry (module_world swift_dir) "*" = [0] ∧
     registry (module_world swift_dir) "schema" = [1] ∧
     registry (module_world swift_dir) "dbscheme" = [2] ∧
     registry (module_world swift_dir) "ql" = [3; 4; 5] ∧
     registry (module_world swift_dir) "trap" = [6]).
Proof.
  split; [| split; [| split]].
  - intros w a tags kw Hwf. exists (registered a tags kw w).
    split; [by apply Option_init_spec, wf_factory |].
    split; [apply registered_heap |].
    intros t. eexists. apply registered_registry.
  - intros os t. apply run_ops_sorted; [apply wf_module_start |].
    intros t'. constructor.
  - intros ds. split.
    + by rewrite declare_heap by apply wf_module_start.
    + intros t. by destruct (declare_spec ds module_start t wf_module_start)
        as (_ & _ & ->).
  - intros swift_dir. split; [apply module_world_declare |].
    repeat split; vm_compute; reflexivity.
Qed.

Lemma registry_in_declaration_order_witness :
  wf (module_world PyNone) ∧
  ∃ w', Option_init [PyStr "--late"] (Some ["trap"; "ql"]) [] (module_world PyNone)
        = (Ret 7, w') ∧
        ∃ n, registry w' "ql" = [3; 4; 5] ++ replicate n 7.
Proof.
  assert (Hwf : wf (module_world PyNone)) by (vm_compute; reflexivity).
  split; [exact Hwf |].
  destruct registry_in_declaration_order as (Happend & _).
  destruct (Happend (module_world PyNone) [PyStr "--late"]
              (Some ["trap"; "ql"]) [] Hwf) as (w' & Hinit & _ & Hreg).
  exists w'. split; [exact Hinit |]. exact (Hreg "ql").
Defined.

(** ** C4 *)

Lemma occ_sequence w tags (o : oref) :
  occ o (registry w "*" ++ flat_map (registry w) tags)
  = occ o (registry w "*") + sum_list (map (fun t => occ o (registry w t)) tags).
Proof. by rewrite occ_app, occ_flat_map. Qed.

Lemma occ_new_reference a tags kw w t :
  wf w →
  occ (length (heap w)) (registry (registered a tags kw w) t)
  = occ t (keys_of tags).
Proof.
  intros Hwf. rewrite registered_registry, occ_app, occ_replicate.
  pose proof (fresh_not_registered w t Hwf) as Hfresh.
  apply occ_zero in Hfresh. rewrite Hfresh.
  by destruct (decide (length (heap w) = length (heap w))).
Qed.

(** An Option declared with the two tags ["*"] and ["ql"] occurs three
    times, not twice, in [get(["*", "ql"])]: once for the wildcard sequence
    that is always prepended, once for the requested ["*"] and once for
    ["ql"]. *)
Lemma wildcard_among_two_tags_counterexample :
  match Option_init [PyStr "--both"] (Some ["*"; "ql"]) [] (module_world PyNone)
  with
  | (Ret o, w') =>
      match listed 9 ["*"; "ql"] w' with
      | Some (Ret xs, _) =>
          o = 7 ∧ xs = [0; 7; 0; 7; 3; 4; 5; 7] ∧ occ o xs = 3 ∧ occ o xs ≠ 2
      | _ => False
      end
  | _ => False
  end.
Proof. vm_compute. repeat split. discriminate. Qed.

(** C4 (amended). [get] performs no deduplication: an Option occurs in the
    result once for each of its occurrences in the wildcard sequence and in
    the sequence of each requested tag, counted per occurrence of the tag in
    the request; a tag requested twice contributes its sequence twice; and
    an Option declared with tags [x] and [y] is in [get([x])], in
    [get([y])], and at least twice in [get([x, y])]: once for every
    occurrence of a declared tag among ["*"], [x], [y], which is exactly
    twice when [x] and [y] are two different tags other than the
    wildcard. *)
Theorem get_does_not_deduplicate :
  (∀ w tags (o : oref), wf w →
     ∃ xs, yields w tags xs ∧
           occ o xs = occ o (registry w "*")
                      + sum_list (map (fun t => occ o (registry w t)) tags)) ∧
  (∀ w t, wf w →
     yields w [t; t] (registry w "*" ++ registry w t ++ registry w t)) ∧
  (∀ w a kw x y, wf w →
     ∃ o w' xs_x xs_y xs_xy,
       Option_init a (Some [x; y]) kw w = (Ret o, w') ∧
       yields w' [x] xs_x ∧ yields w' [y] xs_y ∧ yields w' [x; y] xs_xy ∧
       o ∈ xs_x ∧ o ∈ xs_y ∧ (2 ≤ occ o xs_xy)%nat ∧
       occ o xs_xy = occ "*" [x; y] + occ x [x; y] + occ y [x; y] ∧
       (x ≠ y → x ≠ "*" → y ≠ "*" →
        occ o xs_x = 1 ∧ occ o xs_y = 1 ∧ occ o xs_xy = 2)).
Proof.
  split; [| split].
  - intros w tags o Hwf. eexists. split.
    + by apply yields_sequence, wf_factory.
    + apply occ_sequence.
  - intros w t Hwf. pose proof (yields_sequence w [t; t] (wf_factory w Hwf)) as H.
    simpl in H. by rewrite app_nil_r in H.
  - intros w a kw x y Hwf.
    set (w' := registered a (Some [x; y]) kw w).
    assert (Hf' : default_factory (_options w') = Some Factory_list)
      by (unfold w'; rewrite registered_factory; by apply wf_factory).
    exists (length (heap w)), w'. do 3 eexists.
    split; [by apply Option_init_spec, wf_factory |].
    split; [by apply yields_sequence |].
    split; [by apply yields_sequence |].
    split; [by apply yields_sequence |].
    assert (Hocc : ∀ t, occ (length (heap w)) (registry w' t) = occ t [x; y])
      by (intros t; unfold w'; by rewrite occ_new_reference).
    rewrite <- !occ_pos, !occ_sequence. simpl. rewrite !Hocc, !occ_cons, !occ_nil.
    destruct (decide (x = y)), (decide (x = "*")), (decide (y = "*"));
      repeat case_decide; subst; try congruence; repeat split; try lia;
      intros; congruence.
Qed.

Lemma get_does_not_deduplicate_witness :
  wf (module_world PyNone) ∧
  ∃ xs, yields (module_world PyNone) ["ql"; "ql"] xs ∧ occ 4 xs = 2.
Proof.
  assert (Hwf : wf (module_world PyNone)) by (vm_compute; reflexivity).
  split; [exact Hwf |].
  destruct get_does_not_deduplicate as (Hcount & _).
  destruct (Hcount (module_world PyNone) ["ql"; "ql"] 4 Hwf) as (xs & Hxs & Hocc).
  exists xs. split; [exact Hxs |].
  etrans; [exact Hocc |]. vm_compute. reflexivity.
Defined.

(** ** C5 *)

(** In the module's own state, the value returned by [get(set())] produces
    the wildcard Option when it is iterated, and nothing when it is iterated
    a second time. *)
Lemma second_iteration_is_empty_counterexample :
  match get [] (module_world PyNone) with
  | (Ret g, w1) =>
      match iterate 5 g w1 with
      | Some (Ret first, w2) =>
          match iterate 5 g w2 with
          | Some (Ret second, _) =>
              first = [0] ∧ second = [] ∧ second ≠ first
          | _ => False
          end
      | _ => False
      end
  | _ => False
  end.
Proof. vm_compute. repeat split. discriminate. Qed.

Lemma consumed_factory tags w :
  default_factory (_options (consumed tags w)) = default_factory (_options w).
Proof. reflexivity. Qed.

Lemma registry_consumed tags w t : registry (consumed tags w) t = registry w t.
Proof.
  pose proof (registry_touch_all ("*" :: tags) w t) as H. exact H.
Qed.

(** C5 (amended). The value returned by [get(tags)] is a one-shot generator:
    its first complete iteration produces the wildcard sequence followed by
    the sequence of each requested tag; every later iteration of the same
    value produces nothing and changes nothing; a new call of [get(tags)]
    produces the same elements in the same order again. *)
Theorem generator_is_one_shot (w : world) (tags : list string) :
  wf w →
  ∃ g w1 w2,
    get tags w = (Ret g, w1) ∧
    (∀ fuel, length (registry w "*" ++ flat_map (registry w) tags) < fuel →
       iterate fuel g w1
       = Some (Ret (registry w "*" ++ flat_map (registry w) tags), w2)) ∧
    (∀ fuel, 0 < fuel → iterate fuel g w2 = Some (Ret [], w2)) ∧
    yields w2 tags (registry w "*" ++ flat_map (registry w) tags).
Proof.
  intros Hwf. pose proof (wf_factory w Hwf) as Hf.
  exists (length (generators w)), (snd (get tags w)), (consumed tags w).
  split; [done |]. split; [| split].
  - intros fuel Hlen. pose proof (listed_spec fuel tags w Hf Hlen) as H.
    exact H.
  - intros fuel Hfuel.
    rewrite (iterate_spec _ fuel (consumed tags w) finished).
    + unfold pending, set_generator, set_items, touch_all, consumed. simpl.
      do 3 f_equal. apply list_insert_id. by apply list_lookup_middle.
    + done.
    + simpl. by apply list_lookup_middle.
    + simpl. lia.
  - pose proof (yields_sequence (consumed tags w) tags Hf) as H.
    rewrite registry_consumed in H.
    by rewrite (flat_map_ext _ _ (registry_consumed tags w)) in H.
Qed.

Lemma generator_is_one_shot_witness :
  wf (module_world PyNone) ∧
  ∃ g w1 w2,
    get ["ql"] (module_world PyNone) = (Ret g, w1) ∧
    iterate 5 g w1 = Some (Ret [0; 3; 4; 5], w2) ∧
    iterate 5 g w2 = Some (Ret [], w2).
Proof.
  assert (Hwf : wf (module_world PyNone)) by (vm_compute; reflexivity).
  split; [exact Hwf |].
  destruct (generator_is_one_shot (module_world PyNone) ["ql"] Hwf)
    as (g & w1 & w2 & Hget & Hfirst & Hsecond & _).
  exists g, w1, w2. split; [exact Hget |]. split.
  - replace [0; 3; 4; 5]
      with (registry (module_world PyNone) "*"
            ++ flat_map (registry (module_world PyNone)) ["ql"])
      by (vm_compute; reflexivity).
    apply Hfirst. vm_compute. lia.
  - apply Hsecond. lia.
Defined.

(** ** C6 *)

(** In the module's own state, consuming [get({"nope"})] adds the key
    ["nope"] to the registry mapping. *)
Lemma unseen_tag_is_inserted_counterexample :
  match listed 5 ["nope"] (module_world PyNone) with
  | Some (Ret _, w2) =>
      items (_options (module_world PyNone)) !! "nope" = None ∧
      items (_options w2) !! "nope" = Some [] ∧
      _options w2 ≠ _options (module_world PyNone)
  | _ => False
  end.
Proof.
  vm_compute. split; [reflexivity |]. split; [reflexivity |]. discriminate.
Qed.

Lemma touch_lookup m k j :
  touch m k !! j
  = match m !! j with
    | Some l => Some l
    | None => if decide (j = k) then Some [] else None
    end.
Proof.
  unfold touch. destruct (m !! k) eqn:Hk.
  - destruct (m !! j) eqn:Hj; [done |].
    destruct (decide (j = k)); [congruence | done].
  - rewrite lookup_insert. destruct (decide (k = j)) as [->|Hne].
    + rewrite Hk. by destruct (decide (j = j)).
    + destruct (m !! j); [done |]. destruct (decide (j = k)); [congruence | done].
Qed.

Lemma touch_all_lookup ks : ∀ m j,
  touch_all ks m !! j
  = match m !! j with
    | Some l => Some l
    | None => if decide (j ∈ ks) then Some [] else None
    end.
Proof.
  induction ks as [|k ks IH]; intros m j; simpl.
  - destruct (m !! j); [done |]. destruct (decide (j ∈ [])) as [Hin|]; [| done].
    by apply elem_of_nil in Hin.
  - unfold touch_all in *. simpl. rewrite IH, touch_lookup.
    destruct (m !! j); [done |].
    destruct (decide (j = k)) as [->|Hne].
    + destruct (decide (k ∈ k :: ks)) as [|Hnot]; [done |].
      exfalso. apply Hnot, list_elem_of_here.
    + destruct (decide (j ∈ ks)), (decide (j ∈ k :: ks)) as [Hin|Hnot];
        try done.
      * exfalso. apply Hnot. by apply list_elem_of_further.
      * apply elem_of_cons in Hin as [->|]; done.
Qed.

(** C6 (amended). After initialization no read changes the sequence held
    under any tag: whatever calls of [get] and iteration steps are run, every
    tag reads as before; and the call [get(tags)] itself leaves the registry
    mapping exactly unchanged.  Consuming the returned generator keeps every
    entry of the mapping and adds, for the wildcard and each requested tag
    that was not a key, that key with an empty sequence; the mapping is
    exactly unchanged when all of them were keys already. *)
Theorem reads_keep_every_sequence (w : world) :
  wf w →
  (∀ tags, ∃ g w1, get tags w = (Ret g, w1) ∧
                   _options w1 = _options w ∧ heap w1 = heap w) ∧
  (∀ os t, forallb is_read os = true →
           registry (run_ops os w) t = registry w t) ∧
  (∀ tags fuel,
     length (registry w "*" ++ flat_map (registry w) tags) < fuel →
     ∃ xs w2,
       listed fuel tags w = Some (Ret xs, w2) ∧
       heap w2 = heap w ∧
       default_factory (_options w2) = default_factory (_options w) ∧
       (∀ k, items (_options w2) !! k
             = match items (_options w) !! k with
               | Some l => Some l
               | None => if decide (k ∈ "*" :: tags) then Some [] else None
               end) ∧
       (∀ t, registry w2 t = registry w t) ∧
       ((∀ k, k ∈ "*" :: tags → is_Some (items (_options w) !! k)) →
        _options w2 = _options w)).
Proof.
  intros Hwf. pose proof (wf_factory w Hwf) as Hf. split; [| split].
  - intros tags. by do 2 eexists.
  - intros os t Hread. by apply run_ops_read.
  - intros tags fuel Hfuel. do 2 eexists.
    split; [by apply listed_spec |]. split; [done |]. split; [done |].
    assert (Hlook : ∀ k, items (_options (consumed tags w)) !! k
             = match items (_options w) !! k with
               | Some l => Some l
               | None => if decide (k ∈ "*" :: tags) then Some [] else None
               end) by (intros k; apply touch_all_lookup).
    split; [exact Hlook |]. split; [apply registry_consumed |].
    intros Hkeys.
    assert (Hitems : items (_options (consumed tags w)) = items (_options w)).
    { apply map_eq. intros k. rewrite Hlook.
      destruct (items (_options w) !! k) eqn:Hk; [done |].
      destruct (decide (k ∈ "*" :: tags)) as [Hin|]; [| done].
      destruct (Hkeys k Hin) as [l Hl]. congruence. }
    unfold consumed in *. simpl in *. rewrite Hitems.
    by destruct (_options w).
Qed.

Lemma reads_keep_every_sequence_witness :
  wf (module_world PyNone) ∧
  ∃ xs w2,
    listed 5 ["trap"] (module_world PyNone) = Some (Ret xs, w2) ∧
    _options w2 = _options (module_world PyNone).
Proof.
  assert (Hwf : wf (module_world PyNone)) by (vm_compute; reflexivity).
  split; [exact Hwf |].
  destruct (reads_keep_every_sequence (module_world PyNone) Hwf) as (_ & _ & H).
  destruct (H ["trap"] 5) as (xs & w2 & Hl & _ & _ & _ & _ & Hsame).
  - vm_compute. lia.
  - exists xs, w2. split; [exact Hl |]. apply Hsame.
    intros k Hk. apply elem_of_cons in Hk as [-> | Hk].
    + vm_compute. eauto.
    + apply list_elem_of_singleton in Hk as ->. vm_compute. eauto.
Defined.

(** ** C7 *)

(** C7. In a well-formed state neither registration nor retrieval raises:
    a constructor call returns a reference, whatever the spellings and
    directives; [get] returns a generator for any tag list, each step of a
    generator returns (an element or the end), and consuming the generator
    returns a list; a tag absent from the registry contributes nothing.  The
    states reached are well-formed again. *)
Theorem registration_and_retrieval_never_raise (w : world) :
  wf w →
  (∀ a tags kw, ∃ o w', Option_init a tags kw w = (Ret o, w') ∧ wf w') ∧
  (∀ tags, ∃ g w1,
     get tags w = (Ret g, w1) ∧ wf w1 ∧ is_Some (generators w1 !! g) ∧
     ∃ xs w2, wf w2 ∧
       ∀ fuel, length xs < fuel → iterate fuel g w1 = Some (Ret xs, w2)) ∧
  (∀ g, is_Some (generators w !! g) →
     ∃ r w', gen_next g w = (Ret r, w') ∧ wf w') ∧
  (∀ t, items (_options w) !! t = None →
     registry w t = [] ∧ yields w [t] (registry w "*")).
Proof.
  intros Hwf. pose proof (wf_factory w Hwf) as Hf.
  split; [| split; [| split]].
  - intros a tags kw. exists (length (heap w)), (registered a tags kw w).
    split; [by apply Option_init_spec | by apply wf_registered].
  - intros tags. exists (length (generators w)), (snd (get tags w)).
    split; [done |]. split; [exact Hwf |].
    split; [simpl; rewrite list_lookup_middle by done; eauto |].
    exists (registry w "*" ++ flat_map (registry w) tags), (consumed tags w).
    split.
    + apply wf_spec. split; [done |]. intros t o. rewrite registry_consumed.
      apply wf_spec in Hwf as [_ Hb]. apply Hb.
    + intros fuel Hfuel. exact (listed_spec fuel tags w Hf Hfuel).
  - intros g [st Hg].
    destruct (gen_next_spec g w st Hf Hg) as (visited & st' & r & Hnext & _).
    do 2 eexists. split; [exact Hnext |].
    pose proof (run_op_wf (Next g) w Hwf) as Hwf'. simpl in Hwf'.
    by rewrite Hnext in Hwf'.
  - intros t Hnone.
    assert (Hreg : registry w t = []) by (unfold registry; by rewrite Hnone).
    split; [done |].
    pose proof (yields_sequence w [t] Hf) as H. simpl in H.
    by rewrite Hreg, !app_nil_r in H.
Qed.

Lemma registration_and_retrieval_never_raise_witness :
  wf (module_world PyNone) ∧
  (∃ o w', Option_init [PyStr "not a flag"] (Some ["ql"; "never seen"])
             [("bogus", PyNone)] (module_world PyNone) = (Ret o, w')) ∧
  yields (module_world PyNone) ["never seen"] [0].
Proof.
  assert (Hwf : wf (module_world PyNone)) by (vm_compute; reflexivity).
  split; [exact Hwf |].
  destruct (registration_and_retrieval_never_raise (module_world PyNone) Hwf)
    as (Hinit & _ & _ & Habsent).
  split.
  - destruct (Hinit [PyStr "not a flag"] (Some ["ql"; "never seen"])
                [("bogus", PyNone)]) as (o & w' & H & _).
    exists o, w'. exact H.
  - replace [0] with (registry (module_world PyNone) "*")
      by (vm_compute; reflexivity).
    apply Habsent. vm_compute. reflexivity.
Defined.

(** ** C8 *)

Lemma elem_of_flat_map {A B} (f : A → list B) (l : list A) (y : B) :
  y ∈ flat_map f l ↔ ∃ x, x ∈ l ∧ y ∈ f x.
Proof.
  rewrite list_elem_of_In, in_flat_map. split.
  - intros (x & Hx & Hy). exists x. by rewrite !list_elem_of_In.
  - intros (x & Hx & Hy). exists x. by rewrite <- !list_elem_of_In.
Qed.

(** C8. Retrieval is monotone in the requested tags: when every tag of [T1]
    is in [T2], every element of [get(T1)], and in particular every Option
    held under a tag of [T1], is in [get(T2)].  An Option constructed
    without tags is in [get(T)] for every [T], the empty one included, in the
    state its construction leaves and in every later state. *)
Theorem get_monotone_in_tags :
  (∀ w (T1 T2 : list string), wf w → T1 ⊆ T2 →
     ∃ xs1 xs2, yields w T1 xs1 ∧ yields w T2 xs2 ∧ xs1 ⊆ xs2 ∧
       ∀ t (o : oref), t ∈ T1 → o ∈ registry w t → o ∈ xs1 ∧ o ∈ xs2) ∧
  (∀ w a kw tags, wf w → tags = None ∨ tags = Some [] →
     ∃ o w', Option_init a tags kw w = (Ret o, w') ∧
       ∀ os T, ∃ xs, yields (run_ops os w') T xs ∧ o ∈ xs).
Proof.
  split.
  - intros w T1 T2 Hwf Hsub. pose proof (wf_factory w Hwf) as Hf.
    exists (registry w "*" ++ flat_map (registry w) T1),
           (registry w "*" ++ flat_map (registry w) T2).
    split; [by apply yields_sequence |]. split; [by apply yields_sequence |].
    split.
    + intros o. rewrite !elem_of_app, !elem_of_flat_map.
      intros [? | (t & Ht & Ho)]; [by left | right].
      exists t. split; [by apply Hsub | done].
    + intros t o Ht Ho. rewrite !elem_of_app, !elem_of_flat_map.
      split; right; exists t; split; try done. by apply Hsub.
  - intros w a kw tags Hwf Hempty.
    exists (length (heap w)), (registered a tags kw w).
    split; [by apply Option_init_spec, wf_factory |].
    intros os T.
    pose proof (wf_registered a tags kw w Hwf) as Hwf'.
    pose proof (run_ops_wf os _ Hwf') as Hwf''.
    eexists. split; [by apply yields_sequence, wf_factory |].
    apply elem_of_app. left.
    destruct (run_ops_prefix os _ "*" Hwf') as [more ->].
    apply elem_of_app. left. rewrite registered_registry.
    assert (Hkeys : keys_of tags = ["*"]) by by destruct Hempty as [-> | ->].
    rewrite Hkeys. apply elem_of_app. right. apply list_elem_of_here.
Qed.

Lemma get_monotone_in_tags_witness :
  wf (module_world PyNone) ∧ ["ql"] ⊆ ["trap"; "ql"] ∧
  ∃ xs1 xs2, yields (module_world PyNone) ["ql"] xs1 ∧
             yields (module_world PyNone) ["trap"; "ql"] xs2 ∧ xs1 ⊆ xs2.
Proof.
  assert (Hwf : wf (module_world PyNone)) by (vm_compute; reflexivity).
  assert (Hsub : ["ql"] ⊆ ["trap"; "ql"]).
  { intros t Ht. apply list_elem_of_singleton in Ht as ->.
    apply list_elem_of_further, list_elem_of_here. }
  split; [exact Hwf |]. split; [exact Hsub |].
  destruct get_monotone_in_tags as (Hmono & _).
  destruct (Hmono (module_world PyNone) ["ql"] ["trap"; "ql"] Hwf Hsub)
    as (xs1 & xs2 & H1 & H2 & Hincl & _).
  exists xs1, xs2. split; [exact H1 |]. split; [exact H2 | exact Hincl].
Defined.

(** ** C10 *)

Lemma sum_occ_wildcard_only w (o : oref) tags :
  occ o (registry w "*") = 1 →
  (∀ t, t ≠ "*" → o ∉ registry w t) →
  sum_list (map (fun t => occ o (registry w t)) tags) = occ "*" tags.
Proof.
  intros Hone Hnone. induction tags as [|t tags IH]; simpl; [done |].
  rewrite occ_cons, IH. destruct (decide (t = "*")) as [->|Hne].
  - by rewrite Hone.
  - apply Hnone, occ_zero in Hne. by rewrite Hne.
Qed.

(** C10. When the requested tags include the wildcard ["*"], an untagged
    Option, one held once under the wildcard tag and under no other, occurs
    once for the wildcard sequence that is always prepended and once more
    for each requested ["*"]: twice when the request is a set.  An Option
    constructed without tags is such an Option. *)
Theorem requested_wildcard_repeats_untagged :
  (∀ w tags (o : oref), wf w →
     occ o (registry w "*") = 1 → (∀ t, t ≠ "*" → o ∉ registry w t) →
     ∃ xs, yields w tags xs ∧ occ o xs = 1 + occ "*" tags ∧
           (NoDup tags → "*" ∈ tags → occ o xs = 2)) ∧
  (∀ w a kw tags0, wf w → tags0 = None ∨ tags0 = Some [] →
     ∃ o w', Option_init a tags0 kw w = (Ret o, w') ∧ wf w' ∧
       occ o (registry w' "*") = 1 ∧ (∀ t, t ≠ "*" → o ∉ registry w' t)).
Proof.
  split.
  - intros w tags o Hwf Hone Hnone. eexists.
    split; [by apply yields_sequence, wf_factory |].
    rewrite occ_sequence, Hone, sum_occ_wildcard_only by done.
    split; [done |]. intros Hnd Hin. by rewrite occ_NoDup.
  - intros w a kw tags0 Hwf Hempty.
    exists (length (heap w)), (registered a tags0 kw w).
    split; [by apply Option_init_spec, wf_factory |].
    split; [by apply wf_registered |].
    assert (Hkeys : keys_of tags0 = ["*"]) by by destruct Hempty as [-> | ->].
    split.
    + by rewrite occ_new_reference, Hkeys.
    + intros t Hne. apply occ_zero. rewrite occ_new_reference, Hkeys by done.
      rewrite occ_cons. destruct (decide ("*" = t)); [congruence | done].
Qed.

Lemma requested_wildcard_repeats_untagged_witness :
  wf module_start ∧
  ∃ o w' xs,
    Option_init [PyStr "--verbose"] None [] module_start = (Ret o, w') ∧
    yields w' ["*"] xs ∧ occ o xs = 2.
Proof.
  assert (Hwf : wf module_start) by (vm_compute; reflexivity).
  split; [exact Hwf |].
  destruct requested_wildcard_repeats_untagged as (Hcount & Hnew).
  destruct (Hnew module_start [PyStr "--verbose"] [] None Hwf
              (or_introl eq_refl)) as (o & w' & Hinit & Hwf' & Hone & Hnone).
  destruct (Hcount w' ["*"] o Hwf' Hone Hnone) as (xs & Hxs & _ & Htwice).
  exists o, w', xs. split; [exact Hinit |]. split; [exact Hxs |].
  apply Htwice; [apply NoDup_singleton | apply list_elem_of_here].
Defined.

(** ** C9 *)

Section ParserFacts.
Context {parser : Type}.
Variable add_argument :
  list pyval → list (string * pyval) → parser → world
  → result pyval * parser * world.

(** C9. [add_to] passes the stored [args] and [kwargs] of the Option to
    the parser's [add_argument], as they are, and returns [None] (or
    raises what [add_argument] raised); the state it leaves is the one
    [add_argument] left.  With a collaborator that acts only on itself,
    the program state, and so the Option, is unchanged, and a later call
    against any parser behaves as it would have before. *)
Theorem add_to_forwards_unchanged (self : oref) (o : Option) (p : parser)
    (w : world) :
  heap w !! self = Some o →
  add_to parser add_argument self p w
  = match add_argument (args o) (kwargs o) p w with
    | (Ret _, p', w') => (Ret PyNone, p', w')
    | (Raise e, p', w') => (Raise e, p', w')
    end ∧
  ((∀ a kw q v, snd (add_argument a kw q v) = v) →
   snd (add_to parser add_argument self p w) = w ∧
   heap (snd (add_to parser add_argument self p w)) !! self = Some o ∧
   ∀ p2, add_to parser add_argument self p2
           (snd (add_to parser add_argument self p w))
         = add_to parser add_argument self p2 w).
Proof.
  intros Hself. unfold add_to. rewrite Hself. split; [done |].
  intros Hframe.
  assert (Hsame : snd (match add_argument (args o) (kwargs o) p w with
                       | (Ret _, p', w') => (Ret PyNone, p', w')
                       | (Raise e, p', w') => (Raise e, p', w')
                       end) = w).
  { specialize (Hframe (args o) (kwargs o) p w).
    by destruct (add_argument (args o) (kwargs o) p w) as [[[v|e] p'] w']. }
  rewrite Hsame. split; [done |]. split; [done |]. intros p2.
  by rewrite Hself.
Qed.
End ParserFacts.

Lemma add_to_forwards_unchanged_witness :
  heap (module_world PyNone) !! 6
  = Some {| args := [PyStr "--trap-output"];
            kwargs := [("type", PyFun "_abspath"); ("required", PyBool true)] |} ∧
  add_to _ record_argument 6 [] (module_world PyNone)
  = (Ret PyNone,
     [([PyStr "--trap-output"],
       [("type", PyFun "_abspath"); ("required", PyBool true)])],
     module_world PyNone).
Proof.
  assert (Hself : heap (module_world PyNone) !! 6
                  = Some {| args := [PyStr "--trap-output"];
                            kwargs := [("type", PyFun "_abspath");
                                       ("required", PyBool true)] |})
    by (vm_compute; reflexivity).
  split; [exact Hself |].
  destruct (add_to_forwards_unchanged record_argument 6 _ []
              (module_world PyNone) Hself) as (Hcall & Hframe).
  destruct (Hframe (fun a kw q v => eq_refl)) as (Hsame & _).
  rewrite Hcall. reflexivity.
Defined.

(** * Further properties *)

(** ** A generator between [get] and its consumption *)

Lemma run_op_other_generator o w g st :
  wf w → generators w !! g = Some st → o ≠ Next g →
  generators (run_op w o) !! g = Some st.
Proof.
  intros Hwf Hg Hne. destruct o as [a tags kw | tags | g'].
  - simpl. rewrite Option_init_spec by by apply wf_factory. simpl.
    by rewrite registered_generators.
  - simpl. rewrite lookup_app_l; [done | by eapply lookup_lt_Some].
  - simpl. destruct (generators w !! g') as [st0|] eqn:Hg'.
    + destruct (gen_next_spec g' w st0 (wf_factory w Hwf) Hg')
        as (visited & st' & r & -> & _). simpl.
      rewrite list_lookup_insert_ne; [done | congruence].
    + by rewrite gen_next_dangling.
Qed.

Lemma run_ops_other_generator os : ∀ w g st,
  wf w → generators w !! g = Some st → Forall (fun o => o ≠ Next g) os →
  generators (run_ops os w) !! g = Some st.
Proof.
  induction os as [|o os IH]; intros w g st Hwf Hg Hall; simpl; [done |].
  apply Forall_cons in Hall as [Ho Hall].
  apply IH; [by apply run_op_wf | by apply run_op_other_generator | done].
Qed.

(** The generator returned by [get(tags)] looks the registry up when it is
    consumed, not when [get] is called: whatever happens in between, short of
    advancing this generator (constructor calls, other calls of [get], steps
    of other generators), consuming it then produces the wildcard sequence
    and the requested sequences of the state in which it is consumed. *)
Theorem generator_reads_registry_when_consumed (w : world)
    (tags : list string) (os : list op) :
  wf w →
  Forall (fun o => o ≠ Next (length (generators w))) os →
  ∃ g w1 w3,
    get tags w = (Ret g, w1) ∧
    ∀ fuel,
      length (registry (run_ops os w1) "*"
              ++ flat_map (registry (run_ops os w1)) tags) < fuel →
      iterate fuel g (run_ops os w1)
      = Some (Ret (registry (run_ops os w1) "*"
                   ++ flat_map (registry (run_ops os w1)) tags), w3).
Proof.
  intros Hwf Hall.
  exists (length (generators w)), (snd (get tags w)). eexists.
  split; [done |]. intros fuel Hfuel.
  assert (Hwf1 : wf (snd (get tags w))) by exact (run_op_wf (Get tags) w Hwf).
  assert (Hg : generators (run_ops os (snd (get tags w))) !! length (generators w)
               = Some {| outer := "*" :: tags; inner := None |}).
  { apply run_ops_other_generator; [done | | done].
    simpl. by apply list_lookup_middle. }
  rewrite (iterate_spec _ fuel _ _ (wf_factory _ (run_ops_wf os _ Hwf1)) Hg).
  - done.
  - done.
Qed.

Lemma generator_reads_registry_when_consumed_witness :
  wf module_start ∧
  Forall (fun o => o ≠ Next (length (generators module_start)))
    [Construct [PyStr "--late"] (Some ["x"]) []] ∧
  ∃ g w1 w3,
    get ["x"] module_start = (Ret g, w1) ∧
    iterate 2 g (run_ops [Construct [PyStr "--late"] (Some ["x"]) []] w1)
    = Some (Ret [0], w3).
Proof.
  assert (Hwf : wf module_start) by (vm_compute; reflexivity).
  assert (Hall : Forall (fun o => o ≠ Next (length (generators module_start)))
                   [Construct [PyStr "--late"] (Some ["x"]) []])
    by (repeat constructor; discriminate).
  split; [exact Hwf |]. split; [exact Hall |].
  destruct (generator_reads_registry_when_consumed module_start ["x"]
              [Construct [PyStr "--late"] (Some ["x"]) []] Hwf Hall)
    as (g & w1 & w3 & Hget & Hiter).
  exists g, w1, w3. split; [exact Hget |].
  injection Hget as <- <-.
  replace [0] with
    (registry (run_ops [Construct [PyStr "--late"] (Some ["x"]) []]
                 (snd (get ["x"] module_start))) "*"
     ++ flat_map (registry (run_ops [Construct [PyStr "--late"] (Some ["x"]) []]
                              (snd (get ["x"] module_start)))) ["x"])
    by (vm_compute; reflexivity).
  apply Hiter. vm_compute. lia.
Defined.

(** ** Advancing a generator step by step *)

Lemma next_after_steps g : ∀ k w st,
  default_factory (_options w) = Some Factory_list →
  generators w !! g = Some st →
  fst (gen_next g (run_ops (replicate k (Next g)) w)) = Ret (pending w st !! k).
Proof.
  induction k as [|k IH]; intros w st Hf Hg;
    destruct (gen_next_spec g w st Hf Hg) as (visited & st' & r & Hnext & _ & Hr).
  - simpl. rewrite Hnext. simpl. destruct r as [o|].
    + by rewrite Hr.
    + destruct Hr as (-> & _). done.
  - simpl. rewrite Hnext. simpl.
    set (w' := set_generator g st'
                 (set_items (touch_all visited (items (_options w))) w)).
    assert (Hreg : ∀ t, registry w' t = registry w t)
      by (intros; apply registry_touch_all).
    rewrite (IH w' st').
    + rewrite (pending_ext w' w st' Hreg). destruct r as [o|].
      * by rewrite Hr.
      * destruct Hr as (-> & -> & _). done.
    + done.
    + simpl. apply list_lookup_insert_eq. by eapply lookup_lt_Some.
Qed.

(** Calling [next] on the generator returned by [get(tags)] hands out the
    elements one at a time, in order: the call number [k + 1] returns element
    number [k] of the wildcard sequence followed by the requested sequences,
    and every call past the end signals the end of the iteration. *)
Theorem next_returns_elements_in_order (w : world) (tags : list string)
    (k : nat) :
  wf w →
  ∃ g w1,
    get tags w = (Ret g, w1) ∧
    fst (gen_next g (run_ops (replicate k (Next g)) w1))
    = Ret ((registry w "*" ++ flat_map (registry w) tags) !! k).
Proof.
  intros Hwf. exists (length (generators w)), (snd (get tags w)).
  split; [done |].
  rewrite (next_after_steps _ k _ {| outer := "*" :: tags; inner := None |}).
  - done.
  - by apply wf_factory.
  - simpl. by apply list_lookup_middle.
Qed.

Lemma next_returns_elements_in_order_witness :
  wf (module_world PyNone) ∧
  ∃ g w1,
    get ["ql"] (module_world PyNone) = (Ret g, w1) ∧
    fst (gen_next g (run_ops (replicate 2 (Next g)) w1)) = Ret (Some 4).
Proof.
  assert (Hwf : wf (module_world PyNone)) by (vm_compute; reflexivity).
  split; [exact Hwf |].
  destruct (next_returns_elements_in_order (module_world PyNone) ["ql"] 2 Hwf)
    as (g & w1 & Hget & Hnext).
  exists g, w1. split; [exact Hget |]. rewrite Hnext.
  vm_compute. reflexivity.
Defined.

(** ** Reads and registration *)

Lemma run_op_construct_agree a tags kw w1 w2 :
  wf w1 → wf w2 → heap w1 = heap w2 →
  (∀ t, registry w1 t = registry w2 t) →
  heap (run_op w1 (Construct a tags kw)) = heap (run_op w2 (Construct a tags kw)) ∧
  ∀ t, registry (run_op w1 (Construct a tags kw)) t
       = registry (run_op w2 (Construct a tags kw)) t.
Proof.
  intros Hwf1 Hwf2 Hheap Hreg. simpl.
  rewrite !Option_init_spec by by apply wf_factory. simpl. split.
  - by rewrite !registered_heap, Hheap.
  - intros t. by rewrite !registered_registry, Hreg, Hheap.
Qed.

Lemma run_ops_drop_reads os : ∀ w1 w2,
  wf w1 → wf w2 → heap w1 = heap w2 →
  (∀ t, registry w1 t = registry w2 t) →
  heap (run_ops os w1)
  = heap (run_ops (filter (fun o => is_read o = false) os) w2) ∧
  ∀ t, registry (run_ops os w1) t
       = registry (run_ops (filter (fun o => is_read o = false) os) w2) t.
Proof.
  induction os as [|o os IH]; intros w1 w2 Hwf1 Hwf2 Hheap Hreg; [done |].
  destruct (is_read o) eqn:Hread.
  - rewrite filter_cons_False by (rewrite Hread; discriminate). simpl.
    destruct (run_op_read o w1 Hwf1 Hread) as (Hwf1' & Hheap' & Hreg').
    apply IH; [done | done | congruence |].
    intros t. by rewrite Hreg'.
  - rewrite filter_cons_True by done. simpl.
    destruct o as [a tags kw | |]; try discriminate.
    destruct (run_op_construct_agree a tags kw w1 w2) as [Hh Hr]; try done.
    apply IH; [by apply run_op_wf | by apply run_op_wf | done | done].
Qed.

(** Reads never influence what is registered: after any sequence of
    constructor calls, calls of [get] and generator steps, the Option
    instances and the sequence held under every tag are the ones that the
    constructor calls alone, in the same order, would have produced.  In
    particular a key that a read has inserted with an empty sequence does
    not change any later registration under that key. *)
Theorem registration_ignores_reads (w : world) (os : list op) :
  wf w →
  heap (run_ops os w)
  = heap (run_ops (filter (fun o => is_read o = false) os) w) ∧
  ∀ t, registry (run_ops os w) t
       = registry (run_ops (filter (fun o => is_read o = false) os) w) t.
Proof. intros Hwf. by apply run_ops_drop_reads. Qed.

Lemma registration_ignores_reads_witness :
  wf module_start ∧
  registry (run_ops [Get ["x"]; Next 0; Construct [PyStr "--x"] (Some ["x"]) [];
                     Next 0] module_start) "x"
  = registry (run_ops [Construct [PyStr "--x"] (Some ["x"]) []] module_start) "x".
Proof.
  assert (Hwf : wf module_start) by (vm_compute; reflexivity).
  split; [exact Hwf |].
  exact (proj2 (registration_ignores_reads module_start
                  [Get ["x"]; Next 0; Construct [PyStr "--x"] (Some ["x"]) [];
                   Next 0] Hwf) "x").
Defined.

(** ** Which requests return an Option *)

Lemma new_reference_under a tags kw w t :
  wf w →
  length (heap w) ∈ registry (registered a tags kw w) t ↔ t ∈ keys_of tags.
Proof.
  intros Hwf. rewrite <- !occ_pos. by rewrite occ_new_reference.
Qed.

(** An Option declared with a non-empty tag list is returned by [get(T)]
    exactly when one of its tags is requested (or is ["*"]): it is in the
    result for every request naming one of its tags, and in no result for a
    request naming none of them. *)
Theorem tagged_option_returned_iff_requested (w : world) (a : list pyval)
    (ts : list string) (kw : list (string * pyval)) (T : list string) :
  wf w → ts ≠ [] →
  ∃ o w' xs,
    Option_init a (Some ts) kw w = (Ret o, w') ∧
    yields w' T xs ∧
    (o ∈ xs ↔ ∃ t, t ∈ ts ∧ t ∈ "*" :: T).
Proof.
  intros Hwf Hne.
  exists (length (heap w)), (registered a (Some ts) kw w). eexists.
  split; [by apply Option_init_spec, wf_factory |].
  split.
  { apply yields_sequence. rewrite registered_factory. by apply wf_factory. }
  assert (Hkeys : keys_of (Some ts) = ts) by by destruct ts.
  change (registry (registered a (Some ts) kw w) "*"
          ++ flat_map (registry (registered a (Some ts) kw w)) T)
    with (flat_map (registry (registered a (Some ts) kw w)) ("*" :: T)).
  rewrite elem_of_flat_map. split.
  - intros (t & Ht & Ho). exists t. split; [| done].
    apply new_reference_under in Ho; [| done]. by rewrite Hkeys in Ho.
  - intros (t & Ht & HT). exists t. split; [done |].
    apply new_reference_under; [done |]. by rewrite Hkeys.
Qed.

Lemma tagged_option_returned_iff_requested_witness :
  wf (module_world PyNone) ∧ ["ql"; "trap"] ≠ [] ∧
  ∃ o w' xs,
    Option_init [PyStr "--both"] (Some ["ql"; "trap"]) [] (module_world PyNone)
    = (Ret o, w') ∧
    yields w' ["schema"] xs ∧ o ∉ xs.
Proof.
  assert (Hwf : wf (module_world PyNone)) by (vm_compute; reflexivity).
  split; [exact Hwf |]. split; [discriminate |].
  destruct (tagged_option_returned_iff_requested (module_world PyNone)
              [PyStr "--both"] ["ql"; "trap"] [] ["schema"] Hwf)
    as (o & w' & xs & Hinit & Hxs & Hiff); [discriminate |].
  exists o, w', xs. split; [exact Hinit |]. split; [exact Hxs |].
  intros Hin. apply Hiff in Hin as (t & Ht & HT).
  apply elem_of_cons in Ht as [-> | Ht].
  - apply elem_of_cons in HT as [HT | HT]; [discriminate |].
    apply list_elem_of_singleton in HT. discriminate.
  - apply list_elem_of_singleton in Ht as ->.
    apply elem_of_cons in HT as [HT | HT]; [discriminate |].
    apply list_elem_of_singleton in HT. discriminate.
Defined.

(** ** Declarations with at most one tag *)

Lemma keys_of_single tags :
  (length (or_empty tags) ≤ 1)%nat → ∃ k, keys_of tags = [k].
Proof.
  unfold keys_of. destruct tags as [[|t [|t' ts]]|]; simpl; intros H;
    eauto; lia.
Qed.

Lemma registered_single_key a tags kw w :
  wf w → (length (or_empty tags) ≤ 1)%nat →
  (∀ t, NoDup (registry w t)) →
  (∀ t1 t2 (o : oref), o ∈ registry w t1 → o ∈ registry w t2 → t1 = t2) →
  (∀ t, NoDup (registry (registered a tags kw w) t)) ∧
  (∀ t1 t2 (o : oref),
     o ∈ registry (registered a tags kw w) t1 →
     o ∈ registry (registered a tags kw w) t2 → t1 = t2).
Proof.
  intros Hwf Hlen Hnd Huniq. destruct (keys_of_single tags Hlen) as [k Hk].
  assert (Hreg : ∀ t, registry (registered a tags kw w) t
            = registry w t ++ (if decide (k = t) then [length (heap w)] else [])).
  { intros t. rewrite registered_registry, Hk, occ_cons, occ_nil.
    by destruct (decide (k = t)). }
  assert (Hmem : ∀ t o, o ∈ registry (registered a tags kw w) t ↔
                        o ∈ registry w t ∨ (o = length (heap w) ∧ k = t)).
  { intros t o. rewrite Hreg, elem_of_app. destruct (decide (k = t)).
    - rewrite list_elem_of_singleton. tauto.
    - split; [intros [?|?%elem_of_nil]; [by left | done] |].
      intros [? | [_ ?]]; [by left | done]. }
  split.
  - intros t. rewrite Hreg. apply NoDup_app. split; [apply Hnd |]. split.
    + intros o Ho. destruct (decide (k = t)); [| by intros ?%elem_of_nil].
      intros ->%list_elem_of_singleton. by apply (fresh_not_registered w t).
    + destruct (decide (k = t)); [apply NoDup_singleton | apply NoDup_nil_2].
  - intros t1 t2 o H1%Hmem H2%Hmem.
    destruct H1 as [H1 | [-> <-]], H2 as [H2 | [Ho <-]]; try done.
    + by apply (Huniq t1 t2 o).
    + subst o. by apply fresh_not_registered in H1.
    + by apply fresh_not_registered in H2.
Qed.

Lemma declare_single_key ds : ∀ w,
  wf w → Forall (fun d => (length (or_empty (d_tags d)) ≤ 1)%nat) ds →
  (∀ t, NoDup (registry w t)) →
  (∀ t1 t2 (o : oref), o ∈ registry w t1 → o ∈ registry w t2 → t1 = t2) →
  (∀ t, NoDup (registry (declare ds w) t)) ∧
  (∀ t1 t2 (o : oref),
     o ∈ registry (declare ds w) t1 → o ∈ registry (declare ds w) t2 → t1 = t2).
Proof.
  induction ds as [|d ds IH]; intros w Hwf Hall Hnd Huniq; [done |].
  apply Forall_cons in Hall as [Hd Hall]. simpl.
  rewrite Option_init_spec by by apply wf_factory. simpl.
  destruct (registered_single_key (d_args d) (d_tags d) (d_kwargs d) w)
    as [Hnd' Huniq']; try done.
  apply IH; [by apply wf_registered | done | done | done].
Qed.

Lemma NoDup_flat_map_disjoint {A B} (f : A → list B) (l : list A) :
  NoDup l → (∀ x, NoDup (f x)) →
  (∀ x1 x2 y, y ∈ f x1 → y ∈ f x2 → x1 = x2) →
  NoDup (flat_map f l).
Proof.
  intros Hl Hf Huniq. induction Hl as [|x l Hx Hl IH]; simpl.
  - apply NoDup_nil_2.
  - apply NoDup_app. split; [apply Hf |]. split; [| done].
    intros y Hy (x' & Hx' & Hy')%elem_of_flat_map.
    by rewrite (Huniq x x' y Hy Hy') in Hx.
Qed.

(** When every declaration carries at most one tag, as those of
    [_init_options] do, [get] returns no Option twice for a request without
    repetition that does not name ["*"]: each spelling is then handed to a
    parser once. *)
Theorem single_tag_declarations_give_no_duplicates :
  (∀ ds T,
     Forall (fun d => (length (or_empty (d_tags d)) ≤ 1)%nat) ds →
     NoDup T → "*" ∉ T →
     ∃ xs, yields (declare ds module_start) T xs ∧ NoDup xs) ∧
  (∀ swift_dir T,
     NoDup T → "*" ∉ T →
     ∃ xs, yields (module_world swift_dir) T xs ∧ NoDup xs).
Proof.
  assert (Hgen : ∀ ds T,
     Forall (fun d => (length (or_empty (d_tags d)) ≤ 1)%nat) ds →
     NoDup T → "*" ∉ T →
     ∃ xs, yields (declare ds module_start) T xs ∧ NoDup xs).
  { intros ds T Hall HT Hstar.
    destruct (declare_spec ds module_start "*" wf_module_start) as (Hwf & _).
    eexists. split; [by apply yields_sequence, wf_factory |].
    destruct (declare_single_key ds module_start wf_module_start Hall)
      as [Hnd Huniq].
    - intros t. apply NoDup_nil_2.
    - intros t1 t2 o Ho. by apply elem_of_nil in Ho.
    - change (NoDup (flat_map (registry (declare ds module_start)) ("*" :: T))).
      apply NoDup_flat_map_disjoint; [by apply NoDup_cons | done | done]. }
  split; [exact Hgen |].
  intros swift_dir T HT Hstar. rewrite module_world_declare.
  apply Hgen; [| done | done].
  repeat constructor; simpl; lia.
Qed.

Lemma single_tag_declarations_give_no_duplicates_witness :
  NoDup ["ql"; "trap"] ∧ ("*" ∉ ["ql"; "trap"]) ∧
  ∃ xs, yields (module_world PyNone) ["ql"; "trap"] xs ∧ NoDup xs.
Proof.
  assert (Hnd : NoDup ["ql"; "trap"]).
  { apply NoDup_cons. split; [| apply NoDup_singleton].
    intros H. apply list_elem_of_singleton in H. discriminate. }
  assert (Hstar : "*" ∉ ["ql"; "trap"]).
  { intros H. apply elem_of_cons in H as [H | H]; [discriminate |].
    apply list_elem_of_singleton in H. discriminate. }
  split; [exact Hnd |]. split; [exact Hstar |].
  exact (proj2 single_tag_declarations_give_no_duplicates PyNone
           ["ql"; "trap"] Hnd Hstar).
Defined.

(** ** Requests as lists *)

(** The order in which the requested tags are enumerated only affects the
    order of the result: two enumerations of the same tags give the same
    Options with the same multiplicities, and in both the wildcard sequence
    comes first.  Requesting [T1 ++ T2] gives the result for [T1] followed by
    the sequences of the tags of [T2]. *)
Theorem get_of_rearranged_request (w : world) (T1 T2 : list string) :
  wf w →
  (T1 ≡ₚ T2 →
   ∃ rest1 rest2,
     yields w T1 (registry w "*" ++ rest1) ∧
     yields w T2 (registry w "*" ++ rest2) ∧
     rest1 ≡ₚ rest2) ∧
  ∃ xs1, yields w T1 xs1 ∧
         yields w (T1 ++ T2) (xs1 ++ flat_map (registry w) T2).
Proof.
  intros Hwf. pose proof (wf_factory w Hwf) as Hf. split.
  - intros Hperm. exists (flat_map (registry w) T1), (flat_map (registry w) T2).
    split; [by apply yields_sequence |]. split; [by apply yields_sequence |].
    by apply Permutation_flat_map.
  - eexists. split; [by apply yields_sequence |].
    pose proof (yields_sequence w (T1 ++ T2) Hf) as H.
    by rewrite flat_map_app, app_assoc in H.
Qed.

Lemma get_of_rearranged_request_witness :
  wf (module_world PyNone) ∧ ["ql"; "trap"] ≡ₚ ["trap"; "ql"] ∧
  ∃ rest1 rest2,
    yields (module_world PyNone) ["ql"; "trap"] ([0] ++ rest1) ∧
    yields (module_world PyNone) ["trap"; "ql"] ([0] ++ rest2) ∧
    rest1 ≡ₚ rest2.
Proof.
  assert (Hwf : wf (module_world PyNone)) by (vm_compute; reflexivity).
  assert (Hperm : ["ql"; "trap"] ≡ₚ ["trap"; "ql"]) by apply perm_swap.
  split; [exact Hwf |]. split; [exact Hperm |].
  replace [0] with (registry (module_world PyNone) "*")
    by (vm_compute; reflexivity).
  exact (proj1 (get_of_rearranged_request (module_world PyNone)
                  ["ql"; "trap"] ["trap"; "ql"] Hwf) Hperm).
Defined.

(** ** What the operations preserve *)

Lemma keys_of_nonempty tags : ∃ k, k ∈ keys_of tags.
Proof.
  unfold keys_of. destruct tags as [[|t ts]|]; simpl; eexists;
    apply list_elem_of_here.
Qed.

Lemma run_op_heap_prefix o w : wf w → heap w `prefix_of` heap (run_op w o).
Proof.
  intros Hwf. destruct o as [a tags kw | tags | g].
  - simpl. rewrite Option_init_spec by by apply wf_factory. simpl.
    rewrite registered_heap. by apply prefix_app_r.
  - by destruct (run_op_read (Get tags) w Hwf eq_refl) as (_ & -> & _).
  - by destruct (run_op_read (Next g) w Hwf eq_refl) as (_ & -> & _).
Qed.

Lemma run_ops_heap_prefix os : ∀ w,
  wf w → heap w `prefix_of` heap (run_ops os w).
Proof.
  induction os as [|o os IH]; intros w Hwf; simpl; [done |].
  etrans; [by apply (run_op_heap_prefix o) |]. by apply IH, run_op_wf.
Qed.

Lemma run_op_all_registered o w :
  wf w →
  (∀ r, r < length (heap w) → ∃ t, r ∈ registry w t) →
  ∀ r, r < length (heap (run_op w o)) → ∃ t, r ∈ registry (run_op w o) t.
Proof.
  intros Hwf Hall r. destruct o as [a tags kw | tags | g].
  - simpl. rewrite Option_init_spec by by apply wf_factory. simpl.
    rewrite registered_heap, length_app. simpl. intros Hr.
    destruct (decide (r = length (heap w))) as [-> | Hne].
    + destruct (keys_of_nonempty tags) as [k Hk]. exists k.
      by apply new_reference_under.
    + destruct (Hall r) as [t Ht]; [lia |]. exists t.
      rewrite registered_registry. apply elem_of_app. by left.
  - destruct (run_op_read (Get tags) w Hwf eq_refl) as (_ & -> & Hreg).
    intros Hr. destruct (Hall r Hr) as [t Ht]. exists t. by rewrite Hreg.
  - destruct (run_op_read (Next g) w Hwf eq_refl) as (_ & -> & Hreg).
    intros Hr. destruct (Hall r Hr) as [t Ht]. exists t. by rewrite Hreg.
Qed.

Lemma run_ops_all_registered os : ∀ w,
  wf w →
  (∀ r, r < length (heap w) → ∃ t, r ∈ registry w t) →
  ∀ r, r < length (heap (run_ops os w)) → ∃ t, r ∈ registry (run_ops os w) t.
Proof.
  induction os as [|o os IH]; intros w Hwf Hall; simpl; [done |].
  apply IH; [by apply run_op_wf | by apply run_op_all_registered].
Qed.

(** In every state reached from the empty module, the references held in
    the registry are exactly the Option instances that have been constructed:
    every Option is under at least one key, so some request returns it, and
    the registry names nothing else. *)
Theorem registry_holds_exactly_the_options (os : list op) (r : oref) :
  r < length (heap (run_ops os module_start))
  ↔ ∃ t, r ∈ registry (run_ops os module_start) t.
Proof.
  split.
  - apply run_ops_all_registered; [apply wf_module_start |].
    simpl. intros r' Hr'. lia.
  - intros [t Ht].
    pose proof (run_ops_wf os module_start wf_module_start) as Hwf.
    apply wf_spec in Hwf as [_ Hb]. by apply (Hb t).
Qed.

(** No constructor call, call of [get] or generator step changes an Option
    that exists or takes it out of its place: its [args] and [kwargs] stay
    what they were, and every position of every tag's sequence keeps the
    reference it holds. *)
Theorem existing_options_stay_in_place (w : world) (os : list op) :
  wf w →
  (∀ r obj, heap w !! r = Some obj → heap (run_ops os w) !! r = Some obj) ∧
  (∀ t i r, registry w t !! i = Some r →
            registry (run_ops os w) t !! i = Some r).
Proof.
  intros Hwf. split.
  - intros r obj Hr. by eapply prefix_lookup_Some, run_ops_heap_prefix.
  - intros t i r Hr. by eapply prefix_lookup_Some, run_ops_prefix.
Qed.

Lemma existing_options_stay_in_place_witness :
  wf (module_world PyNone) ∧
  registry (run_ops [Get ["ql"]; Construct [PyStr "--new"] (Some ["ql"]) [];
                     Next 0; Next 0] (module_world PyNone)) "ql" !! 1
  = Some 4.
Proof.
  assert (Hwf : wf (module_world PyNone)) by (vm_compute; reflexivity).
  split; [exact Hwf |].
  apply (proj2 (existing_options_stay_in_place (module_world PyNone)
                  [Get ["ql"]; Construct [PyStr "--new"] (Some ["ql"]) [];
                   Next 0; Next 0] Hwf) "ql" 1 4).
  vm_compute. reflexivity.
Defined.
